(** * dg: points-to sets with small offsets, and reaching-definitions nodes

    A shallow embedding of

    - [src/src/llvm/AnalysisGeneric.h]: [Offset], a wrapper around
      [uint64_t] whose all-ones value means "unknown offset";
    - [include/dg/analysis/PointsTo/SmallOffsetsPointsToSet.h]: a set of
      (target, offset) pointers kept in a bitvector (64 bits per target)
      plus an overflow [std::set];
    - [include/dg/analysis/ReachingDefinitions/ReachingDefinitions.h]:
      [RDNode] with its def-site collections, and the constructor of
      [ReachingDefinitionsAnalysis].

    Unsigned 64-bit values ([uint64_t], [size_t]) are integers of [Z] in
    the range [0, 2^64); every arithmetic operation of the source is
    followed by [wrap64].  Raw pointers ([PSNode*], [RDNode*]) are opaque
    addresses, compared for equality only. *)

From stdpp Require Import base numbers option list sorting gmap sets strings.

Local Open Scope Z_scope.

#[local] Set Warnings "-clear-no-such-hyp".

(** ** Machine integers *)

Definition wrap64 (z : Z) : Z := z mod 2 ^ 64.

Definition is_u64 (z : Z) : Prop := 0 ≤ z < 2 ^ 64.

(** [unsigned], taken as 32 bits wide. *)
Definition wrap32 (z : Z) : Z := z mod 2 ^ 32.

(** ** [struct Offset] (AnalysisGeneric.h) *)

Module Offset.

(** [#define UNKNOWN_OFFSET ~((uint64_t) 0)] *)
Definition UNKNOWN : Z := 2 ^ 64 - 1.

(** [bool isUnknown() const { return offset == UNKNOWN_OFFSET; }] *)
Definition isUnknown (o : Z) : bool := bool_decide (o = UNKNOWN).

(** [uint64_t operator*() const { return offset; }] *)
Definition deref (o : Z) : Z := o.

(** [Offset operator+(const Offset& o)] *)
Definition plus (a o : Z) : Z :=
  if isUnknown a || isUnknown o then UNKNOWN
  else wrap64 (a + o).

(** [Offset& operator+=(const Offset& o)] *)
Definition plus_assign (a o : Z) : Z :=
  if isUnknown a then a
  else if isUnknown o then UNKNOWN
  else wrap64 (a + o).

(** [bool operator<(const Offset& o) const] *)
Definition lt (a o : Z) : bool := bool_decide (a < o).

(** Modelled from the spec: [Offset::inRange] belongs to
    [dg/analysis/Offset.h], which is not part of the sources at hand.
    The spec lists [inRange(start,end)] as a test on a query offset; the
    comment of [RDNode::addDef] says a definition writes the bytes
    [[off, off + len]], both ends included. *)
Definition inRange (o : Z) (from to : Z) : bool :=
  bool_decide (from ≤ o) && bool_decide (o ≤ to).

End Offset.

(** The struct [Offset] has the single field [uint64_t offset].  The
    points-to set and [RDNode] include [dg/analysis/Offset.h], which is
    not part of the sources at hand; of an offset they use
    [Offset::UNKNOWN], [isUnknown()], [operator*] and [inRange], and the
    first three are taken from the struct of [AnalysisGeneric.h].

    Modelled from the spec: [Pointer] of [dg/analysis/PointsTo/Pointer.h]
    is not part of the sources at hand either.  The spec gives it as the
    pair (MemoryTarget, Offset), equal and ordered lexicographically, so
    a [std::set<Pointer>] is a finite set of pairs; the class reads
    [ptr.target] and [ptr.offset], here [p.1] and [p.2].  Targets are
    addresses. *)
Abbreviation Offset := Z (only parsing).
Abbreviation PSNode := N (only parsing).
Abbreviation Pointer := (N * Z)%type (only parsing).

(** ** [ADT::SparseBitvector] *)

(** Modelled from the spec: [dg/ADT/Bitvector.h] is not part of the
    sources at hand.  The spec calls it a bit index over positions; the
    class below uses [get(i)], [set(i)] and [unset(i)], which return the
    bit's previous value (the callers negate [set] to learn whether a
    pointer is new), [set(rhs)], the union, which returns whether a bit
    was added, and [size()], the number of bits set. *)
Module SparseBitvector.

Definition get (i : Z) (b : gset Z) : bool := bool_decide (i ∈ b).

Definition set (i : Z) (b : gset Z) : bool * gset Z :=
  (get i b, {[ i ]} ∪ b).

Definition unset (i : Z) (b : gset Z) : bool * gset Z :=
  (get i b, b ∖ {[ i ]}).

Definition set_all (rhs b : gset Z) : bool * gset Z :=
  (bool_decide (¬ rhs ⊆ b), b ∪ rhs).

Definition size (b : gset Z) : Z := Z.of_nat (base.size b).

(** Modelled from the spec: the bitvector's [const_iterator] walks the
    bits that are set in index order; an iterator is the list of the
    indices it has not passed yet, [begin()] all of them and [end()]
    none. *)
Definition begin (b : gset Z) : list Z := merge_sort Z.le (elements b).

End SparseBitvector.

(** ** [class SmallOffsetsPointsToSet] *)

Module SmallOffsetsPointsToSet.

(** *** The process-wide table of target identities

    [static std::map<PSNode*,size_t> ids] and
    [static std::vector<PSNode*> idVector] are shared by every set;
    they are the only state the methods touch outside their own
    object, so a method is a function in a state monad over the
    table. *)

Record IdTable := mkIdTable {
  ids : gmap N Z;          (* nodes are numbered 1, 2, ... *)
  idVector : list N        (* node = idVector[id - 1] *)
}.

Definition noIds : IdTable := {| ids := ∅; idVector := [] |}.

Definition M (A : Type) : Type := IdTable → A * IdTable.

Definition ret {A} (a : A) : M A := λ t, (a, t).

Definition bind {A B} (m : M A) (k : A → M B) : M B :=
  λ t, let '(a, t') := m t in k a t'.

Notation "'let!' x ':=' m 'in' k" := (bind m (λ x, k))
  (at level 10, x pattern, m at level 100, k at level 200).

(** What a method returns, and the table it leaves, from table [t]. *)
Definition result {A} (m : M A) (t : IdTable) : A := (m t).1.
Definition table {A} (m : M A) (t : IdTable) : IdTable := (m t).2.

(** [size_t getNodeID(PSNode *node) const]: a node without an identity
    is given the next one. *)
Definition getNodeID (node : PSNode) : M Z := λ t,
  match ids t !! node with
  | Some i => (i, t)
  | None =>
      let i := wrap64 (Z.of_nat (size (ids t)) + 1) in
      (i, {| ids := <[node := i]> (ids t);
             idVector := idVector t ++ [node] |})
  end.

(** [size_t getNodePosition(PSNode *node) const] *)
Definition getNodePosition (node : PSNode) : M Z :=
  let! i := getNodeID node in
  ret (wrap64 (wrap64 (i - 1) * 64)).

(** [size_t getPosition(PSNode *node, Offset off) const] *)
Definition getPosition (node : PSNode) (off : Offset) : M Z :=
  if Offset.isUnknown off then
    let! p := getNodePosition node in ret (wrap64 (p + 63))
  else
    let! p := getNodePosition node in ret (wrap64 (p + Offset.deref off)).

(** [bool isOffsetValid(Offset off) const] *)
Definition isOffsetValid (off : Offset) : bool :=
  Offset.isUnknown off || bool_decide (Offset.deref off ≤ 62).

(** *** The object: a bitvector and an overflow set *)

Record t := mkSet {
  pointers : gset Z;
  largePointers : gset (N * Z)
}.

(** [SmallOffsetsPointsToSet() = default] *)
Definition new : t := {| pointers := ∅; largePointers := ∅ |}.

(** [bool pointsTo(const Pointer& ptr) const] *)
Definition pointsTo (ptr : Pointer) (s : t) : M bool :=
  if isOffsetValid ptr.2 then
    let! pos := getPosition ptr.1 ptr.2 in
    ret (SparseBitvector.get pos (pointers s))
  else
    ret (bool_decide (ptr ∈ largePointers s)).

(** [size_t count(const Pointer& ptr) const] *)
Definition count (ptr : Pointer) (s : t) : M Z :=
  let! b := pointsTo ptr s in ret (if b then 1 else 0).

(** [bool has(const Pointer& ptr) const] *)
Definition has (ptr : Pointer) (s : t) : M bool :=
  let! c := count ptr s in ret (bool_decide (c > 0)).

(** [bool mayPointTo(const Pointer& ptr) const]; [||] evaluates its
    right operand only when the left one is false. *)
Definition mayPointTo (ptr : Pointer) (s : t) : M bool :=
  let! b := pointsTo ptr s in
  if b then ret true else pointsTo (ptr.1, Offset.UNKNOWN) s.

(** The first loop of [removeAny]:
    [for(size_t i = position; i < position + 64; i++)
         changed |= pointers.unset(i);] *)
Definition unsetFrom (position : Z) (b : gset Z) : bool * gset Z :=
  foldl (λ '(changed, b) i,
           let '(r, b') := SparseBitvector.unset i b in
           (changed || r, b'))
        (false, b)
        (seqZ position (wrap64 (position + 64) - position)).

(** [bool removeAny(PSNode *target)] *)
Definition removeAny (target : PSNode) (s : t) : M (bool * t) :=
  let! position := getNodePosition target in
  let '(changed, b) := unsetFrom position (pointers s) in
  let erased := filter (λ p : N * Z, p.1 = target) (largePointers s) in
  let kept := filter (λ p : N * Z, p.1 ≠ target) (largePointers s) in
  ret (changed || bool_decide (erased ≠ ∅),
       {| pointers := b; largePointers := kept |}).

(** [bool addWithUnknownOffset(PSNode *target)] *)
Definition addWithUnknownOffset (target : PSNode) (s : t) : M (bool * t) :=
  let! (_, s1) := removeAny target s in
  let! pos := getPosition target Offset.UNKNOWN in
  let '(prev, b) := SparseBitvector.set pos (pointers s1) in
  ret (negb prev, {| pointers := b; largePointers := largePointers s1 |}).

(** [bool add(PSNode *target, Offset off)] *)
Definition add (target : PSNode) (off : Offset) (s : t) : M (bool * t) :=
  let! h := has (target, Offset.UNKNOWN) s in
  if h then ret (false, s)
  else if Offset.isUnknown off then addWithUnknownOffset target s
  else if isOffsetValid off then
    let! pos := getPosition target off in
    let '(prev, b) := SparseBitvector.set pos (pointers s) in
    ret (negb prev, {| pointers := b; largePointers := largePointers s |})
  else
    ret (bool_decide ((target, off) ∉ largePointers s),
         {| pointers := pointers s;
            largePointers := {[ (target, off) ]} ∪ largePointers s |}).

(** [bool add(const Pointer& ptr)] *)
Definition addPointer (ptr : Pointer) (s : t) : M (bool * t) :=
  add ptr.1 ptr.2 s.

(** [bool add(const SmallOffsetsPointsToSet& S)]; it never asks for an
    identity, so it leaves the table alone. *)
Definition addSet (S : t) (s : t) : bool * t :=
  let '(changed, b) := SparseBitvector.set_all (pointers S) (pointers s) in
  (changed || bool_decide (¬ largePointers S ⊆ largePointers s),
   {| pointers := b; largePointers := largePointers s ∪ largePointers S |}).

(** [bool remove(const Pointer& ptr)] *)
Definition remove (ptr : Pointer) (s : t) : M (bool * t) :=
  if isOffsetValid ptr.2 then
    let! pos := getPosition ptr.1 ptr.2 in
    let '(r, b) := SparseBitvector.unset pos (pointers s) in
    ret (r, {| pointers := b; largePointers := largePointers s |})
  else
    ret (bool_decide (ptr ∈ largePointers s),
         {| pointers := pointers s;
            largePointers := largePointers s ∖ {[ ptr ]} |}).

(** [void clear()] *)
Definition clear (s : t) : t := new.

(** [size_t size() const] *)
Definition size (s : t) : Z :=
  wrap64 (SparseBitvector.size (pointers s)
          + Z.of_nat (base.size (largePointers s))).

(** [bool isSingleton() const] *)
Definition isSingleton (s : t) : bool :=
  bool_decide (SparseBitvector.size (pointers s) = 1)
    && bool_decide (base.size (largePointers s) = 0%nat)
  || bool_decide (SparseBitvector.size (pointers s) = 0)
    && bool_decide (base.size (largePointers s) = 1%nat).

(** [bool empty() const] *)
Definition empty (s : t) : bool :=
  bool_decide (SparseBitvector.size (pointers s) = 0)
    && bool_decide (base.size (largePointers s) = 0%nat).

(** [bool pointsToTarget(PSNode *target) const]: each loop returns true
    at its first hit. *)
Definition pointsToTarget (target : PSNode) (s : t) : M bool :=
  let! position := getNodePosition target in
  ret (existsb (λ i, SparseBitvector.get i (pointers s))
               (seqZ position (wrap64 (position + 64) - position))
       || existsb (λ ptr : N * Z, bool_decide (ptr.1 = target))
                  (elements (largePointers s))).

(** [bool mustPointTo(const Pointer& ptr) const]; [None] is the failed
    [assert(!ptr.offset.isUnknown())]. *)
Definition mustPointTo (ptr : Pointer) (s : t) : M (option bool) :=
  if Offset.isUnknown ptr.2 then ret None
  else let! b := pointsTo ptr s in ret (Some (b && isSingleton s)).

(** [void swap(SmallOffsetsPointsToSet& rhs)]: the object and [rhs]
    after the call. *)
Definition swap (s rhs : t) : t * t :=
  ({| pointers := pointers rhs; largePointers := largePointers rhs |},
   {| pointers := pointers s; largePointers := largePointers s |}).

(** [size_t overflowSetSize() const], [size_t containerSize() const] *)
Definition overflowSetSize (s : t) : Z := Z.of_nat (base.size (largePointers s)).
Definition containerSize (s : t) : Z := SparseBitvector.size (pointers s).

(** *** [class const_iterator]: the bitvector first, then the set *)

(** Modelled from the spec: the order of a [std::set<Pointer>] is
    [Pointer::operator<] of [Pointer.h], lexicographic on (target,
    offset); an iterator of the set is the list of the entries it has
    not passed yet. *)
Definition Pointer_le (a b : N * Z) : Prop :=
  (a.1 < b.1)%N ∨ (a.1 = b.1 ∧ a.2 ≤ b.2).

#[global] Instance Pointer_le_dec a b : Decision (Pointer_le a b).
Proof. unfold Pointer_le. apply _. Defined.

Definition set_begin (X : gset (N * Z)) : list (N * Z) :=
  merge_sort Pointer_le (elements X).

Record const_iterator := mkIterator {
  bitvector_it : list Z;
  bitvector_end : list Z;
  set_it : list (N * Z);
  secondContainer : bool
}.

(** [const_iterator(const ADT::SparseBitvector& pointers,
                   const std::set<Pointer>& largePointers, bool end)] *)
Definition new_const_iterator (pointers : gset Z)
    (largePointers : gset (N * Z)) (end_ : bool) : const_iterator :=
  let bit := if end_ then [] else SparseBitvector.begin pointers in
  {| bitvector_it := bit;
     bitvector_end := [];
     set_it := if end_ then [] else set_begin largePointers;
     secondContainer := if bool_decide (bit = []) then true else end_ |}.

(** [const_iterator begin() const], [const_iterator end() const] *)
Definition begin (s : t) : const_iterator :=
  new_const_iterator (pointers s) (largePointers s) false.
Definition end_ (s : t) : const_iterator :=
  new_const_iterator (pointers s) (largePointers s) true.

(** [const_iterator& operator++()]; a step past the end of a container
    is undefined in the source and stays at the end here. *)
Definition incr (it : const_iterator) : const_iterator :=
  if negb (secondContainer it) then
    let bit := tail (bitvector_it it) in
    {| bitvector_it := bit;
       bitvector_end := bitvector_end it;
       set_it := set_it it;
       secondContainer :=
         if bool_decide (bit = bitvector_end it) then true
         else secondContainer it |}
  else
    {| bitvector_it := bitvector_it it;
       bitvector_end := bitvector_end it;
       set_it := tail (set_it it);
       secondContainer := secondContainer it |}.

(** [Pointer operator*() const]; it reads the static [idVector].  [None]
    stands for what the source leaves undefined: the end iterator
    dereferenced, or [idVector] indexed out of its bounds. *)
Definition deref (it : const_iterator) (t : IdTable) : option Pointer :=
  if negb (secondContainer it) then
    match bitvector_it it with
    | [] => None
    | x :: _ =>
        let offsetID := x mod 64 in
        let nodeID := wrap64 (wrap64 (x - offsetID) / 64 + 1) in
        match idVector t !! Z.to_nat (wrap64 (nodeID - 1)) with
        | None => None
        | Some node =>
            Some (if bool_decide (offsetID = 63) then (node, Offset.UNKNOWN)
                  else (node, offsetID))
        end
    end
  else head (set_it it).

(** [bool operator==(const const_iterator& rhs) const] *)
Definition iterator_eq (it rhs : const_iterator) : bool :=
  bool_decide (bitvector_it it = bitvector_it rhs)
  && bool_decide (set_it it = set_it rhs).

(** The loop a user writes,
    [for (auto it = S.begin(); it != S.end(); ++it) out.push_back( *it);],
    run for at most [fuel] steps; [None] when the fuel runs out before
    [it] reaches [end]. *)
Fixpoint walk (fuel : nat) (it last : const_iterator) (t : IdTable)
    : option (list (option Pointer)) :=
  if iterator_eq it last then Some []
  else match fuel with
       | O => None
       | S fuel => cons (deref it t) <$> walk fuel (incr it) last t
       end.

End SmallOffsetsPointsToSet.

(** ** [struct Pointer] and [struct MemoryObj] (AnalysisGeneric.h) *)

Module Generic.

(** [struct Pointer { MemoryObj *obj; Offset offset; }]: the object is
    an address, 0 for [nullptr]; [<] on addresses is [<] on [N]. *)
Definition isNull (p : N * Z) : bool := bool_decide (p.1 = 0%N).

(** [bool operator<(const Pointer& oth) const] *)
Definition Pointer_lt (p oth : N * Z) : bool :=
  if bool_decide (p.1 = oth.1) then Offset.lt p.2 oth.2
  else bool_decide (p.1 < oth.1)%N.

(** [struct MemoryObj]; [PointsToMapT] is a [std::map] from [Offset],
    ordered by [Offset::operator<], to [std::set<Pointer>]. *)
Record MemoryObj := mkMemoryObj {
  node : option N;                   (* LLVMNode *, nullptr is None *)
  pointsTo : gmap Z (gset (N * Z));
  size : Z
}.

(** [MemoryObj(LLVMNode *n, uint64_t s = 0)] *)
Definition newMemoryObj (n : option N) (s : Z) : MemoryObj :=
  {| node := n; pointsTo := ∅; size := s |}.

(** [bool isUnknown() const { return node == nullptr; }] *)
Definition isUnknown (m : MemoryObj) : bool := bool_decide (node m = None).

(** [bool addPointsTo(const Offset& off, const Pointer& ptr)];
    [pointsTo[off]] makes an empty set for an offset not yet in the
    map. *)
Definition addPointsTo (off : Z) (ptr : N * Z) (m : MemoryObj)
    : bool * MemoryObj :=
  if isUnknown m then (false, m)
  else
    let cur := default ∅ (pointsTo m !! off) in
    (bool_decide (ptr ∉ cur),
     {| node := node m;
        pointsTo := <[off := {[ ptr ]} ∪ cur]> (pointsTo m);
        size := size m |}).

(** [bool setUnknown()] *)
Definition setUnknown (m : MemoryObj) : bool * MemoryObj :=
  if isUnknown m then (false, m)
  else (true, {| node := None; pointsTo := ∅; size := size m |}).

(** [bool hasSize() const { return size != 0; }] *)
Definition hasSize (m : MemoryObj) : bool := bool_decide (size m ≠ 0).

End Generic.

(** ** Reaching definitions (ReachingDefinitions.h) *)

Module RD.

(** [enum class RDNodeType] *)
Inductive RDNodeType :=
| NONE | ALLOC | DYN_ALLOC | STORE | LOAD | PHI | RETURN | CALL
| CALL_RETURN | FORK | JOIN | NOOP.

(** Modelled from the spec: [DefSite] is declared in [RDMap.h], which
    is not part of the sources at hand.  The spec gives it as
    (MemoryTarget, Offset start, Offset length); [RDNode] builds one
    with [DefSite(target, off, len)] and reads [ds.target],
    [*ds.offset] and [*ds.len]. *)
Record DefSite := mkDefSite { target : N; offset : Z; len : Z }.

#[global] Instance DefSite_eq_dec : EqDecision DefSite.
Proof. solve_decision. Defined.

#[global] Instance DefSite_countable : Countable DefSite.
Proof.
  apply (inj_countable' (λ ds, (target ds, offset ds, len ds))
                        (λ p, mkDefSite p.1.1 p.1.2 p.2)).
  by intros [].
Defined.

(** Modelled from the spec: [ReachingDefinitionsAnalysisOptions] has
    its own header, not part of the sources at hand; of it the
    constructor reads [maxSetSize], which the spec describes as an
    integer bounding the contributors kept per range. *)
Record ReachingDefinitionsAnalysisOptions := mkOptions { maxSetSize : Z }.

(** What a constructor that asserts can do. *)
Inductive constructed (A : Type) :=
| AssertionFailed (msg : string)
| Constructed (a : A).
Arguments AssertionFailed {A} msg.
Arguments Constructed {A} a.

Section Nodes.

(** [RDMap] ([RDMap.h]) is not part of the sources at hand; the node
    only stores one and calls [def_map.update(ds, this)]. *)
Variable RDMap : Type.
Variable RDMap_new : RDMap.
Variable RDMap_update : DefSite → N → RDMap → RDMap.

(** [extern RDNode *UNKNOWN_MEMORY] *)
Variable UNKNOWN_MEMORY : N.

(** [class RDNode]; [DefSiteSetT] is a [std::set] of def-sites. *)
Record RDNode := mkRDNode {
  id : Z;                      (* SubgraphNode<RDNode>(id) *)
  type : RDNodeType;
  bblock : option N;           (* nullptr is None *)
  dfsid : Z;
  defs : gset DefSite;         (* weak update *)
  overwrites : gset DefSite;   (* strong update *)
  uses : gset DefSite;
  def_map : RDMap
}.

(** [RDNode(unsigned id, RDNodeType t = RDNodeType::NONE)] *)
Definition newRDNode (i : Z) (ty : RDNodeType) : RDNode :=
  {| id := i; type := ty; bblock := None; dfsid := 0;
     defs := ∅; overwrites := ∅; uses := ∅; def_map := RDMap_new |}.

(** [DefSiteSetT& getDefines()], [DefSiteSetT& getOverwrites()],
    [DefSiteSetT& getUses()] *)
Definition getDefines (n : RDNode) : gset DefSite := defs n.
Definition getOverwrites (n : RDNode) : gset DefSite := overwrites n.
Definition getUses (n : RDNode) : gset DefSite := uses n.

(** [const DefSiteSetT& getDefines() const { return defs; }]
    [const DefSiteSetT& getOverwrites() const { return defs; }]
    [const DefSiteSetT& getUses() const { return uses; }] *)
Definition getDefines_const (n : RDNode) : gset DefSite := defs n.
Definition getOverwrites_const (n : RDNode) : gset DefSite := defs n.
Definition getUses_const (n : RDNode) : gset DefSite := uses n.

(** The test of the two loops of the finite branch of [defines]:
    [ds.target == target
     && off.inRange( *ds.offset, *ds.offset + *ds.len)] *)
Definition coversAt (tgt : N) (off : Z) (ds : DefSite) : bool :=
  bool_decide (target ds = tgt)
  && Offset.inRange off (Offset.deref (offset ds))
       (wrap64 (Offset.deref (offset ds) + Offset.deref (len ds))).

(** [bool defines(RDNode *target, const Offset& off) const]; each
    loop returns [true] at the first def-site that passes its
    test. *)
Definition defines (tgt : N) (off : Z) (n : RDNode) : bool :=
  if Offset.isUnknown off then
    existsb (λ ds, bool_decide (target ds = tgt)) (elements (defs n))
  else
    existsb (coversAt tgt off) (elements (defs n))
    || existsb (coversAt tgt off) (elements (overwrites n)).

(** [bool usesUnknown() const] *)
Definition usesUnknown (n : RDNode) : bool :=
  foldl (λ res use, res || bool_decide (target use = UNKNOWN_MEMORY))
        false (elements (uses n)).

(** [void addUse(T&& ds)] *)
Definition addUse (ds : DefSite) (n : RDNode) : RDNode :=
  {| id := id n; type := type n; bblock := bblock n; dfsid := dfsid n;
     defs := defs n; overwrites := overwrites n;
     uses := {[ ds ]} ∪ uses n; def_map := def_map n |}.

(** [void addDef(const DefSite& ds, bool strong_update = false)];
    [this] is the address of the node. *)
Definition addDef (this : N) (ds : DefSite) (strong_update : bool)
    (n : RDNode) : RDNode :=
  {| id := id n; type := type n; bblock := bblock n; dfsid := dfsid n;
     defs := if strong_update then defs n else {[ ds ]} ∪ defs n;
     overwrites :=
       if strong_update then {[ ds ]} ∪ overwrites n else overwrites n;
     uses := uses n;
     def_map := RDMap_update ds this (def_map n) |}.

(** [void addOverwrites(const DefSite& ds)] *)
Definition addOverwrites (ds : DefSite) (n : RDNode) : RDNode :=
  {| id := id n; type := type n; bblock := bblock n; dfsid := dfsid n;
     defs := defs n; overwrites := {[ ds ]} ∪ overwrites n;
     uses := uses n; def_map := def_map n |}.

(** [bool isOverwritten(const DefSite& ds)] *)
Definition isOverwritten (ds : DefSite) (n : RDNode) : bool :=
  bool_decide (ds ∈ overwrites n).

(** [class ReachingDefinitionsGraph]: the graph owns its nodes; a
    node is referred to by its address. *)
Record ReachingDefinitionsGraph := mkGraph {
  lastNodeID : Z;
  root : option N;             (* nullptr is None *)
  _bblocks : list (list N);
  _nodes : list (N * RDNode)
}.

(** [RDNode *getRoot() const] *)
Definition getRoot (g : ReachingDefinitionsGraph) : option N := root g.

(** [void setRoot(RDNode *r)] *)
Definition setRoot (r : option N) (g : ReachingDefinitionsGraph) :=
  {| lastNodeID := lastNodeID g; root := r;
     _bblocks := _bblocks g; _nodes := _nodes g |}.

(** [RDNode *create(RDNodeType t)]; [addr] is where [new] puts the
    node.  [lastNodeID] is a [size_t] and the constructor [RDNode(unsigned
    id, RDNodeType t)] takes it as an [unsigned]. *)
Definition create (addr : N) (ty : RDNodeType)
    (g : ReachingDefinitionsGraph) : N * ReachingDefinitionsGraph :=
  let i := wrap64 (lastNodeID g + 1) in
  (addr, {| lastNodeID := i; root := root g; _bblocks := _bblocks g;
            _nodes := _nodes g ++ [(addr, newRDNode (wrap32 i) ty)] |}).

(** [ReachingDefinitionsGraph() = default] *)
Definition newGraph : ReachingDefinitionsGraph :=
  {| lastNodeID := 0; root := None; _bblocks := []; _nodes := [] |}.

(** [create] called for each (address, type) of a list in turn. *)
Definition createAll (reqs : list (N * RDNodeType))
    (g : ReachingDefinitionsGraph) : ReachingDefinitionsGraph :=
  foldl (λ g r, (create r.1 r.2 g).2) g reqs.

(** What the defaulted move constructor leaves in its source: the
    vectors are emptied, the members of scalar type ([lastNodeID],
    the raw pointer [root]) are copied and stay. *)
Definition moved_from (g : ReachingDefinitionsGraph) :=
  {| lastNodeID := lastNodeID g; root := root g;
     _bblocks := []; _nodes := [] |}.

(** [class ReachingDefinitionsAnalysis] *)
Record ReachingDefinitionsAnalysis := mkAnalysis {
  graph : ReachingDefinitionsGraph;
  dfsnum : Z;
  options : ReachingDefinitionsAnalysisOptions
}.

(** [ReachingDefinitionsAnalysis(ReachingDefinitionsGraph&& graph,
                                 const ReachingDefinitionsAnalysisOptions& opts)]
    with [assert] compiled in (no [NDEBUG]).  In the body the name
    [graph] is the parameter, which the member initialiser has
    moved from. *)
Definition newAnalysis (g : ReachingDefinitionsGraph)
    (opts : ReachingDefinitionsAnalysisOptions)
    : constructed ReachingDefinitionsAnalysis :=
  let this := {| graph := g; dfsnum := 0; options := opts |} in
  let g := moved_from g in
  if bool_decide (getRoot g = None) then
    AssertionFailed "Root cannot be null"
  else if negb (bool_decide (maxSetSize (options this) > 0)) then
    AssertionFailed "The set size must be at least 1"
  else Constructed this.

End Nodes.

Arguments mkRDNode {RDMap}.
Arguments id {RDMap}.
Arguments type {RDMap}.
Arguments bblock {RDMap}.
Arguments dfsid {RDMap}.
Arguments defs {RDMap}.
Arguments overwrites {RDMap}.
Arguments uses {RDMap}.
Arguments def_map {RDMap}.
Arguments newRDNode {RDMap}.
Arguments getDefines {RDMap}.
Arguments getOverwrites {RDMap}.
Arguments getUses {RDMap}.
Arguments getDefines_const {RDMap}.
Arguments getOverwrites_const {RDMap}.
Arguments getUses_const {RDMap}.
Arguments defines {RDMap}.
Arguments usesUnknown {RDMap}.
Arguments addUse {RDMap}.
Arguments addDef {RDMap}.
Arguments addOverwrites {RDMap}.
Arguments isOverwritten {RDMap}.
Arguments mkGraph {RDMap}.
Arguments lastNodeID {RDMap}.
Arguments root {RDMap}.
Arguments _bblocks {RDMap}.
Arguments _nodes {RDMap}.
Arguments getRoot {RDMap}.
Arguments setRoot {RDMap}.
Arguments create {RDMap}.
Arguments newGraph {RDMap}.
Arguments createAll {RDMap}.
Arguments moved_from {RDMap}.
Arguments mkAnalysis {RDMap}.
Arguments newAnalysis {RDMap}.

End RD.

(** ** Representation invariants and observations of a points-to set *)

Module S := SmallOffsetsPointsToSet.

(** The identity a target has, or is given, in table [t], and the table
    after it was asked for. *)
Definition idOf (T : N) (t : S.IdTable) : Z := S.result (S.getNodeID T) t.
Definition reg (T : N) (t : S.IdTable) : S.IdTable := S.table (S.getNodeID T) t.

(** The table after a sequence of calls of [getNodeID], from the empty
    table the program starts with. *)
Definition registered (calls : list N) : S.IdTable :=
  foldl (λ t T, reg T t) S.noIds calls.

(** [ids] and [idVector] describe the same numbering: target [T] has
    identity [i] exactly when [i >= 1] and [idVector[i - 1]] is [T]. *)
Definition tbl_wf (t : S.IdTable) : Prop :=
  size (S.ids t) = length (S.idVector t)
  ∧ ∀ T i, S.ids t !! T = Some i
           ↔ 1 ≤ i ∧ S.idVector t !! Z.to_nat (i - 1) = Some T.

(** A well-formed table in which [n] more targets can be registered with
    all positions [(id - 1) * 64 + 64] below [2^64]. *)
Definition tbl_room (n : Z) (t : S.IdTable) : Prop :=
  tbl_wf t ∧ Z.of_nat (length (S.idVector t)) + n < 2 ^ 58.

(** Every bit of the set lies in the 64 positions of a registered
    target. *)
Definition bits_wf (t : S.IdTable) (s : S.t) : Prop :=
  ∀ x, x ∈ S.pointers s → 0 ≤ x < 64 * Z.of_nat (length (S.idVector t)).

(** The set [s] contains the pointer [p], as [pointsTo] tells with the
    table [t]. *)
Definition holds (t : S.IdTable) (s : S.t) (p : N * Z) : Prop :=
  S.result (S.pointsTo p s) t = true.

(** A finite offset: a [uint64_t] other than UNKNOWN. *)
Definition finite (k : Z) : Prop := is_u64 k ∧ k ≠ Offset.UNKNOWN.

(** The invariant of the data model for target [T], and for all
    targets: with (T, UNKNOWN) in the set, no (T, k) with [k] finite is
    in it. *)
Definition normal_for (T : N) (t : S.IdTable) (s : S.t) : Prop :=
  holds t s (T, Offset.UNKNOWN) → ∀ k, finite k → ¬ holds t s (T, k).

Definition normal (t : S.IdTable) (s : S.t) : Prop :=
  ∀ T, normal_for T t s.

(** The overflow set holds only the offsets the bitvector has no
    position for: the finite ones above 62. *)
Definition large_wf (s : S.t) : Prop :=
  ∀ p : N * Z, p ∈ S.largePointers s →
               is_u64 p.2 ∧ S.isOffsetValid p.2 = false.

(** What the iterator returns when it stands on bit [x] of the
    bitvector. *)
Definition decodeBit (t : S.IdTable) (x : Z) : option (N * Z) :=
  S.deref {| S.bitvector_it := [x]; S.bitvector_end := [];
             S.set_it := []; S.secondContainer := false |} t.

(** Positions computed from an identity. *)
Definition posOf (i : Z) : Z := wrap64 (wrap64 (i - 1) * 64).

Definition bitOf (i : Z) (off : Z) : Z :=
  if Offset.isUnknown off then wrap64 (posOf i + 63)
  else wrap64 (posOf i + Offset.deref off).

(** *** The methods as functions of the target's identity

    Once the identity [i] of the target is known a method no longer
    needs the table; these are the bodies of the methods with the
    position computed from [i]. *)

(** [pointsTo] for a target of identity [i]. *)
Definition pointsTo_at (i : Z) (p : N * Z) (s : S.t) : bool :=
  if S.isOffsetValid p.2 then SparseBitvector.get (bitOf i p.2) (S.pointers s)
  else bool_decide (p ∈ S.largePointers s).

(** [removeAny] for a target of identity [i]. *)
Definition removeAny_at (i : Z) (T : N) (s : S.t) : S.t :=
  {| S.pointers := (S.unsetFrom (posOf i) (S.pointers s)).2;
     S.largePointers := filter (λ p : N * Z, p.1 ≠ T) (S.largePointers s) |}.

(** [add] for a target of identity [i]. *)
Definition add_at (i : Z) (T : N) (off : Z) (s : S.t) : bool * S.t :=
  if SparseBitvector.get (bitOf i Offset.UNKNOWN) (S.pointers s) then (false, s)
  else if Offset.isUnknown off then
    let s1 := removeAny_at i T s in
    (negb (SparseBitvector.get (bitOf i Offset.UNKNOWN) (S.pointers s1)),
     {| S.pointers := {[ bitOf i Offset.UNKNOWN ]} ∪ S.pointers s1;
        S.largePointers := S.largePointers s1 |})
  else if S.isOffsetValid off then
    (negb (SparseBitvector.get (bitOf i off) (S.pointers s)),
     {| S.pointers := {[ bitOf i off ]} ∪ S.pointers s;
        S.largePointers := S.largePointers s |})
  else
    (bool_decide ((T, off) ∉ S.largePointers s),
     {| S.pointers := S.pointers s;
        S.largePointers := {[ (T, off) ]} ∪ S.largePointers s |}).

(** [remove] for a target of identity [i]. *)
Definition remove_at (i : Z) (p : N * Z) (s : S.t) : bool * S.t :=
  if S.isOffsetValid p.2 then
    (SparseBitvector.get (bitOf i p.2) (S.pointers s),
     {| S.pointers := S.pointers s ∖ {[ bitOf i p.2 ]};
        S.largePointers := S.largePointers s |})
  else
    (bool_decide (p ∈ S.largePointers s),
     {| S.pointers := S.pointers s;
        S.largePointers := S.largePointers s ∖ {[ p ]} |}).

(** [s'] differs from [s] in the 64 positions of identity [i] and in the
    overflow entries of target [T] at most. *)
Definition same_outside (i : Z) (T : N) (s s' : S.t) : Prop :=
  (∀ x, ¬ (64 * (i - 1) ≤ x < 64 * i) →
        x ∈ S.pointers s' ↔ x ∈ S.pointers s)
  ∧ (∀ p : N * Z, p.1 ≠ T → p ∈ S.largePointers s' ↔ p ∈ S.largePointers s).

(** ** Example sets

    Target [exT] with the unknown offset in one set, [exT] with offset 3
    in another, and the first set after [add] of the second. *)

Definition exT : N := 7.

Definition exUnknown : bool * S.t * S.IdTable :=
  S.add exT Offset.UNKNOWN S.new S.noIds.

Definition exThree : bool * S.t * S.IdTable :=
  S.add exT 3 S.new exUnknown.2.

Definition exUnion : bool * S.t :=
  S.addSet exThree.1.2 exUnknown.1.2.

(** * Properties *)

(** ** Machine integers *)

Lemma wrap64_u64 z : is_u64 (wrap64 z).
Proof. unfold is_u64, wrap64. apply Z.mod_pos_bound. lia. Qed.

Lemma wrap64_small z : is_u64 z → wrap64 z = z.
Proof. unfold is_u64, wrap64. intros H. apply Z.mod_small. lia. Qed.

Lemma isUnknown_true o : Offset.isUnknown o = true ↔ o = Offset.UNKNOWN.
Proof. unfold Offset.isUnknown. apply bool_decide_eq_true. Qed.

Lemma isUnknown_false o : Offset.isUnknown o = false ↔ o ≠ Offset.UNKNOWN.
Proof. unfold Offset.isUnknown. apply bool_decide_eq_false. Qed.

Lemma isUnknown_UNKNOWN : Offset.isUnknown Offset.UNKNOWN = true.
Proof. by apply isUnknown_true. Qed.

(** ** Offsets *)

(** C10: addition of offsets is total and wraps at 64 bits.  For finite
    [a] and [b] the sum holds [(a + b) mod 2^64] and is UNKNOWN exactly
    when that value is [2^64 - 1], which two finite offsets do reach; when
    an operand is UNKNOWN so is the sum. *)
Theorem Offset_plus_wraps (a b : Z) :
  is_u64 a → is_u64 b →
  is_u64 (Offset.plus a b)
  ∧ (Offset.isUnknown a = false → Offset.isUnknown b = false →
       Offset.deref (Offset.plus a b) = (a + b) mod 2 ^ 64
       ∧ (Offset.isUnknown (Offset.plus a b) = true
          ↔ (a + b) mod 2 ^ 64 = 2 ^ 64 - 1))
  ∧ (Offset.isUnknown a = true ∨ Offset.isUnknown b = true →
       Offset.isUnknown (Offset.plus a b) = true)
  ∧ (∃ x y, is_u64 x ∧ is_u64 y
       ∧ Offset.isUnknown x = false ∧ Offset.isUnknown y = false
       ∧ Offset.isUnknown (Offset.plus x y) = true).
Proof.
  intros Ha Hb. split; [|split; [|split]].
  - unfold Offset.plus. destruct (_ || _).
    + unfold is_u64, Offset.UNKNOWN. lia.
    + apply wrap64_u64.
  - intros Hfa Hfb. unfold Offset.plus. rewrite Hfa, Hfb. simpl.
    unfold Offset.deref, wrap64. split; [done|].
    rewrite isUnknown_true. done.
  - intros Hu. unfold Offset.plus.
    destruct Hu as [-> | ->]; [|rewrite orb_true_r]; apply isUnknown_UNKNOWN.
  - exists (2 ^ 64 - 2), 1. unfold is_u64. repeat split; try lia.
Qed.

Lemma Offset_plus_wraps_witness :
  Offset.deref (Offset.plus (2 ^ 64 - 2) 1) = (2 ^ 64 - 2 + 1) mod 2 ^ 64.
Proof.
  refine (proj1 (proj1 (proj2 (Offset_plus_wraps (2 ^ 64 - 2) 1 _ _)) _ _)).
  - unfold is_u64. lia.
  - unfold is_u64. lia.
  - reflexivity.
  - reflexivity.
Defined.

(** ** Reaching-definitions nodes *)

Section NodeProperties.

Context {RDMap : Type}.
Implicit Types (n : RD.RDNode RDMap) (ds : RD.DefSite).

Lemma existsb_elements (f : RD.DefSite → bool) (X : gset RD.DefSite) :
  existsb f (elements X) = true ↔ ∃ ds, ds ∈ X ∧ f ds = true.
Proof.
  rewrite existsb_exists. split; intros (ds & Hin & Hf); exists ds.
  - split; [|done]. apply elem_of_elements. by apply list_elem_of_In.
  - split; [|done]. apply list_elem_of_In. by apply elem_of_elements.
Qed.

(** On a finite offset [defines] looks through both collections. *)
Lemma defines_finite tgt off n :
  Offset.isUnknown off = false →
  RD.defines tgt off n = true
  ↔ ∃ ds, (ds ∈ RD.defs n ∨ ds ∈ RD.overwrites n)
          ∧ RD.coversAt tgt off ds = true.
Proof.
  intros Hf. unfold RD.defines. rewrite Hf, orb_true_iff.
  rewrite !existsb_elements. split.
  - intros [(ds & Hin & Hc) | (ds & Hin & Hc)]; exists ds; auto.
  - intros (ds & [Hin | Hin] & Hc); [left | right]; exists ds; auto.
Qed.

(** On the unknown offset it looks through [defs] alone. *)
Lemma defines_unknown tgt n :
  RD.defines tgt Offset.UNKNOWN n = true
  ↔ ∃ ds, ds ∈ RD.defs n ∧ RD.target ds = tgt.
Proof.
  unfold RD.defines. rewrite isUnknown_UNKNOWN, existsb_elements.
  split; intros (ds & Hin & Hf); exists ds; split; try done.
  - by apply bool_decide_eq_true in Hf.
  - by apply bool_decide_eq_true.
Qed.

End NodeProperties.

(** C2: [defines(T, UNKNOWN)] misses a def-site that is in [overwrites]
    only.  A node whose single def-site was added by [addOverwrites] has
    a site with target [T] in one of the two collections, and yet
    [defines(T, UNKNOWN)] is false; asked for a finite offset inside the
    site's bytes the same node answers true. *)
Theorem defines_unknown_skips_overwrites
    (RDMap : Type) (m : RDMap) (i : Z) (ty : RD.RDNodeType) (T : N) :
  let ds := RD.mkDefSite T 0 4 in
  let n := RD.addOverwrites ds (RD.newRDNode m i ty) in
  ds ∈ RD.overwrites n
  ∧ RD.target ds = T
  ∧ RD.defines T Offset.UNKNOWN n = false
  ∧ RD.defines T 2 n = true.
Proof.
  intros ds n. split; [|split; [done|split]].
  - subst n. simpl. set_solver.
  - apply not_true_is_false. rewrite defines_unknown.
    intros (ds' & Hin & _). subst n. simpl in Hin. set_solver.
  - apply defines_finite; [done|]. exists ds. split.
    + right. subst n. simpl. set_solver.
    + unfold RD.coversAt. subst ds. simpl.
      rewrite bool_decide_eq_true_2 by done. reflexivity.
Qed.

(** C3: the const overload of [getOverwrites] hands out [defs].  After
    [addOverwrites(ds)] on a new node the non-const overload contains
    [ds] and the const one does not; after a weak [addDef(ds)] the const
    one contains [ds]. *)
Theorem getOverwrites_const_gives_defs
    (RDMap : Type) (m : RDMap) (upd : RD.DefSite → N → RDMap → RDMap)
    (this : N) (i : Z) (ty : RD.RDNodeType) (ds : RD.DefSite) :
  let fresh := RD.newRDNode m i ty in
  (ds ∈ RD.getOverwrites (RD.addOverwrites ds fresh))
  ∧ (ds ∉ RD.getOverwrites_const (RD.addOverwrites ds fresh))
  ∧ (ds ∈ RD.getOverwrites_const (RD.addDef upd this ds false fresh))
  ∧ (ds ∉ RD.getOverwrites (RD.addDef upd this ds false fresh)).
Proof.
  intros fresh. unfold RD.getOverwrites, RD.getOverwrites_const. simpl.
  set_solver.
Qed.

(** C7: with assertions compiled in, the constructor fails its first
    assertion on a null root and its second on [maxSetSize == 0], and it
    fails in no other case: with a root and [maxSetSize >= 1] it builds
    the analysis around the graph, with [dfsnum] 0 and the options. *)
Theorem newAnalysis_asserts
    (RDMap : Type) (g : RD.ReachingDefinitionsGraph RDMap)
    (opts : RD.ReachingDefinitionsAnalysisOptions) :
  is_u64 (RD.maxSetSize opts) →
  (RD.root g = None →
     RD.newAnalysis g opts = RD.AssertionFailed "Root cannot be null")
  ∧ (RD.root g ≠ None → RD.maxSetSize opts = 0 →
     RD.newAnalysis g opts
     = RD.AssertionFailed "The set size must be at least 1")
  ∧ ((∃ msg, RD.newAnalysis g opts = RD.AssertionFailed msg)
     ↔ RD.root g = None ∨ RD.maxSetSize opts = 0)
  ∧ (RD.root g ≠ None → 1 ≤ RD.maxSetSize opts →
     RD.newAnalysis g opts
     = RD.Constructed (RD.mkAnalysis g 0 opts)).
Proof.
  intros [Hlo Hhi]. unfold RD.newAnalysis, RD.getRoot, RD.moved_from. simpl.
  destruct (RD.root g) as [r|] eqn:Hr.
  - rewrite bool_decide_eq_false_2 by done.
    destruct (decide (RD.maxSetSize opts > 0)) as [Hpos|Hzero].
    + rewrite (bool_decide_eq_true_2 _ Hpos). simpl.
      split; [done|]. split; [lia|]. split; [|done].
      split; [by intros [? ?]|]. intros [?|?]; [done|lia].
    + rewrite (bool_decide_eq_false_2 _ Hzero). simpl.
      split; [done|]. split; [done|]. split; [|lia].
      split; [|by eauto]. intros _. right. lia.
  - rewrite bool_decide_eq_true_2 by done.
    split; [done|]. split; [done|]. split; [|done].
    split; [by left|by eauto].
Qed.

Lemma newAnalysis_asserts_witness :
  RD.newAnalysis (RD.mkGraph (RDMap:=unit) 3 (Some 16%N) [] []) (RD.mkOptions 1)
  = RD.Constructed
      (RD.mkAnalysis (RD.mkGraph (RDMap:=unit) 3 (Some 16%N) [] []) 0
         (RD.mkOptions 1)).
Proof.
  refine (proj2 (proj2 (proj2 (newAnalysis_asserts unit
            (RD.mkGraph 3 (Some 16%N) [] []) (RD.mkOptions 1) _))) _ _).
  - unfold is_u64. simpl. lia.
  - simpl. discriminate.
  - simpl. lia.
Defined.

(** ** The table of identities *)

Lemma getNodeID_known T t i :
  S.ids t !! T = Some i → S.getNodeID T t = (i, t).
Proof. intros H. unfold S.getNodeID. by rewrite H. Qed.

Lemma getNodeID_registers T t :
  S.ids (reg T t) !! T = Some (idOf T t).
Proof.
  unfold reg, idOf, S.table, S.result, S.getNodeID.
  destruct (S.ids t !! T) as [i|] eqn:H; simpl; [done|].
  apply lookup_insert_eq.
Qed.

Lemma getNodeID_eq T t : S.getNodeID T t = (idOf T t, reg T t).
Proof. unfold idOf, reg, S.result, S.table. by destruct (S.getNodeID T t). Qed.

Lemma idOf_known T t i : S.ids t !! T = Some i → idOf T t = i.
Proof. intros H. unfold idOf, S.result. by rewrite (getNodeID_known _ _ _ H). Qed.

Lemma reg_known T t i : S.ids t !! T = Some i → reg T t = t.
Proof. intros H. unfold reg, S.table. by rewrite (getNodeID_known _ _ _ H). Qed.

Lemma idOf_reg T t : idOf T (reg T t) = idOf T t.
Proof. apply idOf_known, getNodeID_registers. Qed.

Lemma reg_reg T t : reg T (reg T t) = reg T t.
Proof. eapply reg_known, getNodeID_registers. Qed.

Lemma tbl_wf_noIds : tbl_wf S.noIds.
Proof.
  split; [done|]. intros T i. simpl. rewrite lookup_empty, lookup_nil.
  split; [done|]. by intros [_ ?].
Qed.

Lemma tbl_wf_range t T i :
  tbl_wf t → S.ids t !! T = Some i →
  1 ≤ i ≤ Z.of_nat (length (S.idVector t)).
Proof.
  intros [_ Hwf] Hi. apply Hwf in Hi as [H1 Hl].
  apply lookup_lt_Some in Hl. lia.
Qed.

Lemma tbl_wf_inj t T1 T2 i :
  tbl_wf t → S.ids t !! T1 = Some i → S.ids t !! T2 = Some i → T1 = T2.
Proof.
  intros [_ Hwf] H1 H2. apply Hwf in H1 as [_ H1]. apply Hwf in H2 as [_ H2].
  congruence.
Qed.

Lemma getNodeID_new T t :
  tbl_wf t → Z.of_nat (length (S.idVector t)) < 2 ^ 64 - 1 →
  S.ids t !! T = None →
  idOf T t = Z.of_nat (length (S.idVector t)) + 1
  ∧ reg T t = {| S.ids := <[T := Z.of_nat (length (S.idVector t)) + 1]> (S.ids t);
                 S.idVector := S.idVector t ++ [T] |}.
Proof.
  intros [Hsz _] Hlen Hnone.
  unfold idOf, reg, S.result, S.table, S.getNodeID. rewrite Hnone. simpl.
  rewrite Hsz, wrap64_small by (unfold is_u64; lia). done.
Qed.

Lemma reg_wf T t :
  tbl_wf t → Z.of_nat (length (S.idVector t)) < 2 ^ 64 - 1 → tbl_wf (reg T t).
Proof.
  intros Hwf Hlen. destruct (S.ids t !! T) as [i|] eqn:Hi.
  { by rewrite (reg_known _ _ _ Hi). }
  destruct (getNodeID_new T t Hwf Hlen Hi) as [_ ->].
  destruct Hwf as [Hsz Hwf]. split; simpl.
  - rewrite map_size_insert_None, length_app by done. simpl. lia.
  - intros T' j. destruct (decide (T' = T)) as [->|Hne].
    + rewrite lookup_insert_eq. split.
      * intros [= <-]. split; [lia|].
        replace (Z.to_nat _) with (length (S.idVector t)) by lia.
        by rewrite lookup_app_r, Nat.sub_diag.
      * intros [Hj Hl]. f_equal.
        destruct (decide (Z.to_nat (j - 1) < length (S.idVector t))%nat) as [Hlt|Hge].
        -- rewrite lookup_app_l in Hl by done.
           assert (S.ids t !! T = Some j) as Hc by (apply Hwf; done).
           congruence.
        -- apply lookup_lt_Some in Hl. rewrite length_app in Hl. simpl in Hl. lia.
    + rewrite lookup_insert_ne by done. rewrite Hwf. split.
      * intros [Hj Hl]. split; [done|].
        rewrite lookup_app_l; [done|]. by apply lookup_lt_Some in Hl.
      * intros [Hj Hl]. split; [done|].
        destruct (decide (Z.to_nat (j - 1) < length (S.idVector t))%nat) as [Hlt|Hge].
        -- by rewrite lookup_app_l in Hl.
        -- rewrite lookup_app_r in Hl by lia.
           apply list_lookup_singleton_Some in Hl as [_ ?]. congruence.
Qed.

Lemma reg_length T t :
  (length (S.idVector t) ≤ length (S.idVector (reg T t))
   ≤ length (S.idVector t) + 1)%nat.
Proof.
  unfold reg, S.table, S.getNodeID. destruct (S.ids t !! T); simpl; [lia|].
  rewrite length_app. simpl. lia.
Qed.

Lemma reg_keeps T t T' j :
  S.ids t !! T' = Some j → S.ids (reg T t) !! T' = Some j.
Proof.
  intros Hj. unfold reg, S.table, S.getNodeID.
  destruct (S.ids t !! T) eqn:Hi; simpl; [done|].
  rewrite lookup_insert_ne; [done|]. congruence.
Qed.

Lemma registered_snoc calls T :
  registered (calls ++ [T]) = reg T (registered calls).
Proof. unfold registered. by rewrite foldl_app. Qed.

Lemma registered_length calls :
  (length (S.idVector (registered calls)) ≤ length calls)%nat.
Proof.
  induction calls as [|T calls IH] using rev_ind; [done|].
  rewrite registered_snoc, length_app. simpl.
  pose proof (reg_length T (registered calls)). lia.
Qed.

Lemma registered_wf calls :
  Z.of_nat (length calls) < 2 ^ 64 → tbl_wf (registered calls).
Proof.
  induction calls as [|T calls IH] using rev_ind; intros Hlen.
  { apply tbl_wf_noIds. }
  rewrite length_app in Hlen. simpl in Hlen.
  rewrite registered_snoc. apply reg_wf; [apply IH; lia|].
  pose proof (registered_length calls). lia.
Qed.

Lemma registered_dom calls T :
  is_Some (S.ids (registered calls) !! T) ↔ T ∈ calls.
Proof.
  induction calls as [|T' calls IH] using rev_ind.
  { simpl. rewrite lookup_empty. split; [by intros [? ?]|by intros ?%elem_of_nil]. }
  rewrite registered_snoc, elem_of_app, list_elem_of_singleton, <- IH.
  split.
  - intros [j Hj]. destruct (decide (T = T')) as [->|Hne]; [by right|left].
    unfold reg, S.table, S.getNodeID in Hj.
    destruct (S.ids (registered calls) !! T') eqn:E; simpl in Hj; [by eauto|].
    rewrite lookup_insert_ne in Hj by done. by eauto.
  - intros [[j Hj] | ->].
    + exists j. by apply reg_keeps.
    + eexists. apply getNodeID_registers.
Qed.

(** C8: identities are given on first use, from 1 upwards, and stay.
    After any sequence [calls] of [getNodeID] calls from the empty
    table, a further call for [T] returns the identity [T] already has
    and changes nothing when [T] was asked for before, and otherwise
    returns the number of targets plus one (1 on the empty table),
    larger than every identity given so far, and appends [T] to
    [idVector]; identities given earlier are kept, no identity belongs
    to two targets, and [idVector[i - 1]] is the target with identity
    [i]. *)
Theorem getNodeID_assigns_next (calls : list N) (T : N) :
  Z.of_nat (length calls) < 2 ^ 64 - 1 →
  let t := registered calls in
  let i := S.result (S.getNodeID T) t in
  let t' := S.table (S.getNodeID T) t in
  S.result (S.getNodeID T) S.noIds = 1
  ∧ (T ∈ calls → S.ids t !! T = Some i ∧ t' = t)
  ∧ (T ∉ calls →
       S.ids t !! T = None
       ∧ i = Z.of_nat (length (S.idVector t)) + 1
       ∧ S.idVector t' = S.idVector t ++ [T]
       ∧ ∀ T' j, S.ids t !! T' = Some j → 1 ≤ j < i)
  ∧ (∀ T' j, S.ids t !! T' = Some j → S.ids t' !! T' = Some j)
  ∧ (∀ T1 T2 j, S.ids t' !! T1 = Some j → S.ids t' !! T2 = Some j → T1 = T2)
  ∧ (∀ T' j, S.ids t' !! T' = Some j
             ↔ 1 ≤ j ∧ S.idVector t' !! Z.to_nat (j - 1) = Some T')
  ∧ S.ids t' !! T = Some i
  ∧ S.idVector t' !! Z.to_nat (i - 1) = Some T.
Proof.
  intros Hlen t i t'. subst i t'. fold (idOf T t). fold (reg T t).
  assert (tbl_wf t) as Hwf by (apply registered_wf; lia).
  assert (Z.of_nat (length (S.idVector t)) < 2 ^ 64 - 1) as Hl.
  { pose proof (registered_length calls). subst t. lia. }
  assert (tbl_wf (reg T t)) as Hwf' by (by apply reg_wf).
  assert (S.ids (reg T t) !! T = Some (idOf T t)) as Hi
    by apply getNodeID_registers.
  split; [done|]. split; [|split; [|split; [|split; [|split; [|split]]]]].
  - intros Hin. apply registered_dom in Hin as [j Hj]. fold t in Hj.
    by rewrite (idOf_known _ _ _ Hj), (reg_known _ _ _ Hj).
  - intros Hnin.
    assert (S.ids t !! T = None) as Hnone.
    { apply eq_None_not_Some. intros Hs. by apply Hnin, registered_dom. }
    destruct (getNodeID_new T t Hwf Hl Hnone) as [Hid Hreg].
    split; [done|]. split; [done|]. split; [by rewrite Hreg|].
    intros T' j Hj. pose proof (tbl_wf_range _ _ _ Hwf Hj). lia.
  - intros T' j Hj. by apply reg_keeps.
  - intros T1 T2 j. by apply tbl_wf_inj.
  - apply Hwf'.
  - done.
  - by apply Hwf'.
Qed.

Lemma getNodeID_assigns_next_witness :
  S.ids (S.table (S.getNodeID 7%N) (registered [5; 9; 5]%N)) !! 7%N
  = Some (S.result (S.getNodeID 7%N) (registered [5; 9; 5]%N)).
Proof.
  assert (Z.of_nat (length [5; 9; 5]%N) < 2 ^ 64 - 1) as H by (simpl; lia).
  exact (proj1 (proj2 (proj2 (proj2 (proj2 (proj2 (proj2
           (getNodeID_assigns_next [5; 9; 5]%N 7%N H)))))))).
Defined.

(** ** The methods as functions of the target's identity *)

Lemma getPosition_eq T off t :
  S.getPosition T off t = (bitOf (idOf T t) off, reg T t).
Proof.
  unfold S.getPosition, bitOf, posOf, S.getNodePosition, S.bind, S.ret.
  destruct (Offset.isUnknown off); cbv beta; by rewrite getNodeID_eq.
Qed.

Lemma pointsTo_eq p s t :
  S.pointsTo p s t
  = (pointsTo_at (idOf p.1 t) p s, if S.isOffsetValid p.2 then reg p.1 t else t).
Proof.
  unfold S.pointsTo, pointsTo_at, S.bind, S.ret.
  destruct (S.isOffsetValid p.2); [|done]. by rewrite getPosition_eq.
Qed.

Lemma pointsTo_result p s t :
  S.result (S.pointsTo p s) t = pointsTo_at (idOf p.1 t) p s.
Proof. unfold S.result. by rewrite pointsTo_eq. Qed.

Lemma has_eq p s t : S.has p s t = S.pointsTo p s t.
Proof.
  unfold S.has, S.count, S.bind, S.ret.
  destruct (S.pointsTo p s t) as [[] t']; reflexivity.
Qed.

Lemma isOffsetValid_UNKNOWN : S.isOffsetValid Offset.UNKNOWN = true.
Proof. reflexivity. Qed.

Lemma mayPointTo_result T off s t :
  S.result (S.mayPointTo (T, off) s) t
  = pointsTo_at (idOf T t) (T, off) s
    || pointsTo_at (idOf T t) (T, Offset.UNKNOWN) s.
Proof.
  unfold S.result, S.mayPointTo, S.bind, S.ret. rewrite pointsTo_eq. simpl.
  destruct (pointsTo_at (idOf T t) (T, off) s); [done|].
  rewrite pointsTo_eq. simpl.
  destruct (S.isOffsetValid off); by rewrite ?idOf_reg.
Qed.

Lemma foldl_unset l c b :
  (foldl (λ '(changed, b) i,
            let '(r, b') := SparseBitvector.unset i b in (changed || r, b'))
         (c, b) l).2
  = b ∖ list_to_set l.
Proof.
  revert c b. induction l as [|x l IH]; intros c b; simpl.
  - set_solver.
  - rewrite IH. set_solver.
Qed.

Lemma unsetFrom_elem p b x :
  x ∈ (S.unsetFrom p b).2 ↔ x ∈ b ∧ ¬ (p ≤ x < wrap64 (p + 64)).
Proof.
  unfold S.unsetFrom. rewrite foldl_unset, elem_of_difference.
  rewrite elem_of_list_to_set, elem_of_seqZ.
  split; intros [Hb Hn]; (split; [done|]); intros ?; apply Hn; lia.
Qed.

Lemma removeAny_eq T s t :
  (S.removeAny T s t).1.2 = removeAny_at (idOf T t) T s
  ∧ (S.removeAny T s t).2 = reg T t.
Proof.
  unfold S.removeAny, S.getNodePosition, S.bind, S.ret.
  rewrite getNodeID_eq. fold (posOf (idOf T t)). unfold removeAny_at.
  by destruct (S.unsetFrom _ _).
Qed.

Lemma add_eq T off s t : S.add T off s t = (add_at (idOf T t) T off s, reg T t).
Proof.
  unfold S.add, S.bind at 1. rewrite has_eq, pointsTo_eq. simpl.
  unfold pointsTo_at, add_at. simpl.
  destruct (SparseBitvector.get _ _); [done|].
  destruct (Offset.isUnknown off) eqn:Hu.
  - unfold S.addWithUnknownOffset, S.bind, S.ret.
    destruct (removeAny_eq T s (reg T t)) as [Hs Ht].
    destruct (S.removeAny T s (reg T t)) as [[c s1] t1]. simpl in Hs, Ht.
    subst s1 t1. rewrite getPosition_eq, !idOf_reg, !reg_reg.
    reflexivity.
  - destruct (S.isOffsetValid off); [|done].
    unfold S.bind, S.ret. rewrite getPosition_eq, idOf_reg, reg_reg.
    reflexivity.
Qed.

Lemma remove_eq p s t :
  S.remove p s t
  = (remove_at (idOf p.1 t) p s, if S.isOffsetValid p.2 then reg p.1 t else t).
Proof.
  unfold S.remove, remove_at, S.bind, S.ret.
  destruct (S.isOffsetValid p.2); [|done]. by rewrite getPosition_eq.
Qed.

(** ** Positions below [2^64] *)

Lemma posOf_room i : 1 ≤ i < 2 ^ 58 → posOf i = 64 * (i - 1).
Proof.
  intros Hi. unfold posOf.
  rewrite (wrap64_small (i - 1)) by (unfold is_u64; lia).
  rewrite wrap64_small by (unfold is_u64; lia). lia.
Qed.

Lemma posOf_end_room i : 1 ≤ i < 2 ^ 58 → wrap64 (posOf i + 64) = 64 * i.
Proof.
  intros Hi. rewrite posOf_room by done.
  rewrite wrap64_small by (unfold is_u64; lia). lia.
Qed.

Lemma bitOf_UNKNOWN_room i :
  1 ≤ i < 2 ^ 58 → bitOf i Offset.UNKNOWN = 64 * (i - 1) + 63.
Proof.
  intros Hi. unfold bitOf. rewrite isUnknown_UNKNOWN, posOf_room by done.
  apply wrap64_small. unfold is_u64. lia.
Qed.

Lemma bitOf_small_room i k :
  1 ≤ i < 2 ^ 58 → 0 ≤ k ≤ 62 → bitOf i k = 64 * (i - 1) + k.
Proof.
  intros Hi Hk. unfold bitOf, Offset.deref.
  rewrite (proj2 (isUnknown_false k)) by (unfold Offset.UNKNOWN; lia).
  rewrite posOf_room by done. apply wrap64_small. unfold is_u64. lia.
Qed.

Lemma isOffsetValid_finite k :
  k ≠ Offset.UNKNOWN → S.isOffsetValid k = bool_decide (k ≤ 62).
Proof.
  intros Hk. unfold S.isOffsetValid, Offset.deref.
  by rewrite (proj2 (isUnknown_false k)).
Qed.

Lemma idOf_room T t :
  tbl_room 1 t →
  1 ≤ idOf T t < 2 ^ 58
  ∧ idOf T t ≤ Z.of_nat (length (S.idVector (reg T t))).
Proof.
  intros [Hwf Hlen]. destruct (S.ids t !! T) as [i|] eqn:Hi.
  - rewrite (idOf_known _ _ _ Hi), (reg_known _ _ _ Hi).
    pose proof (tbl_wf_range _ _ _ Hwf Hi). lia.
  - destruct (getNodeID_new T t Hwf) as [-> ->]; [lia|done|].
    simpl. rewrite length_app. simpl. lia.
Qed.

Lemma reg_room n T t : 0 ≤ n → tbl_room (n + 1) t → tbl_room n (reg T t).
Proof.
  intros Hn [Hwf Hlen]. split.
  - apply reg_wf; [done|lia].
  - pose proof (reg_length T t). lia.
Qed.

Lemma get_true x (b : gset Z) : SparseBitvector.get x b = true ↔ x ∈ b.
Proof. unfold SparseBitvector.get. apply bool_decide_eq_true. Qed.

Lemma get_false x (b : gset Z) : SparseBitvector.get x b = false ↔ x ∉ b.
Proof. unfold SparseBitvector.get. apply bool_decide_eq_false. Qed.

(** After [removeAny] nothing of the target is left. *)
Lemma removeAny_at_purges i T o s :
  1 ≤ i < 2 ^ 58 → is_u64 o →
  pointsTo_at i (T, o) (removeAny_at i T s) = false.
Proof.
  intros Hi Ho. unfold pointsTo_at, removeAny_at. simpl.
  destruct (S.isOffsetValid o) eqn:Hv.
  - apply get_false. rewrite unsetFrom_elem, posOf_end_room by done.
    intros [_ Hn]. apply Hn.
    destruct (decide (o = Offset.UNKNOWN)) as [->|Hne].
    + rewrite bitOf_UNKNOWN_room, posOf_room by done. lia.
    + rewrite isOffsetValid_finite in Hv by done.
      apply bool_decide_eq_true in Hv. unfold is_u64 in Ho.
      rewrite bitOf_small_room, posOf_room by lia. lia.
  - apply bool_decide_eq_false. rewrite elem_of_filter. simpl. by intros [? _].
Qed.

(** An UNKNOWN [add] that finds no (T, UNKNOWN) leaves (T, UNKNOWN) and
    no finite offset of [T]. *)
Lemma add_at_unknown_purges i T k s :
  1 ≤ i < 2 ^ 58 → finite k →
  pointsTo_at i (T, Offset.UNKNOWN) s = false →
  pointsTo_at i (T, k) (add_at i T Offset.UNKNOWN s).2 = false.
Proof.
  intros Hi [Hk Hfin] Hno. unfold pointsTo_at in Hno. simpl in Hno.
  unfold add_at. rewrite Hno, isUnknown_UNKNOWN. simpl.
  pose proof (removeAny_at_purges i T k s Hi Hk) as Hp.
  unfold pointsTo_at in *. simpl in *.
  destruct (S.isOffsetValid k) eqn:Hv; [|done].
  apply get_false. apply get_false in Hp.
  rewrite isOffsetValid_finite in Hv by done. apply bool_decide_eq_true in Hv.
  rewrite elem_of_union, elem_of_singleton. intros [Heq|Hin]; [|done].
  unfold is_u64 in Hk.
  rewrite bitOf_UNKNOWN_room, bitOf_small_room in Heq by lia. lia.
Qed.

Lemma add_at_unknown_present i T off s :
  pointsTo_at i (T, Offset.UNKNOWN) (add_at i T off s).2 = true
  ∨ Offset.isUnknown off = false.
Proof.
  unfold pointsTo_at, add_at. simpl.
  destruct (SparseBitvector.get (bitOf i Offset.UNKNOWN) (S.pointers s)) eqn:Hg;
    [by left|].
  destruct (Offset.isUnknown off); [left|by right]. simpl.
  apply get_true. set_solver.
Qed.

Lemma set_eq_mk (s : S.t) b l :
  b = S.pointers s → l = S.largePointers s →
  {| S.pointers := b; S.largePointers := l |} = s.
Proof. intros -> ->. by destruct s. Qed.

(** What [add] returns, for a target of identity [i]. *)
Lemma add_at_result i T off s :
  (add_at i T off s).1
  = negb (pointsTo_at i (T, off) s || pointsTo_at i (T, Offset.UNKNOWN) s).
Proof.
  unfold add_at, pointsTo_at. simpl.
  destruct (SparseBitvector.get (bitOf i Offset.UNKNOWN) (S.pointers s)) eqn:Hg.
  { by rewrite orb_true_r. }
  rewrite orb_false_r. destruct (Offset.isUnknown off) eqn:Hu.
  - apply isUnknown_true in Hu as ->. rewrite isOffsetValid_UNKNOWN, Hg. simpl.
    apply negb_true_iff, get_false. rewrite unsetFrom_elem.
    apply get_false in Hg. by intros [? _].
  - destruct (S.isOffsetValid off); simpl; [done|].
    unfold negb. by rewrite bool_decide_not.
Qed.

Lemma add_at_changed i T off s :
  (add_at i T off s).1 = true ↔ (add_at i T off s).2 ≠ s.
Proof.
  rewrite add_at_result. unfold add_at, pointsTo_at. simpl.
  destruct (SparseBitvector.get (bitOf i Offset.UNKNOWN) (S.pointers s)) eqn:Hg.
  { rewrite orb_true_r. simpl. split; [done|]. by intros ?. }
  rewrite orb_false_r. apply get_false in Hg.
  destruct (Offset.isUnknown off) eqn:Hu.
  - apply isUnknown_true in Hu as ->. rewrite isOffsetValid_UNKNOWN. simpl.
    apply get_false in Hg as Hg'. rewrite Hg'. simpl. split; [|done].
    intros _ Heq. apply Hg. rewrite <- Heq. simpl. set_solver.
  - destruct (S.isOffsetValid off); simpl.
    + destruct (SparseBitvector.get (bitOf i off) (S.pointers s)) eqn:Hb; simpl.
      * split; [done|]. intros Hne. exfalso. apply Hne.
        apply get_true in Hb. apply set_eq_mk; [set_solver|done].
      * split; [|done]. intros _ Heq. apply get_false in Hb. apply Hb.
        rewrite <- Heq. simpl. set_solver.
    + rewrite negb_true_iff, bool_decide_eq_false. split.
      * intros Hnin Heq. apply Hnin. rewrite <- Heq. simpl. set_solver.
      * intros Hne Hin. apply Hne. apply set_eq_mk; [done|set_solver].
Qed.

(** What [add] returns, on every set: true exactly when the pair was
    not in the set, directly or by (target, UNKNOWN), and exactly when
    the set changed.  With (target, UNKNOWN) in the set [add] changes
    nothing and returns false; without it, an [add] of the unknown
    offset returns true and leaves (target, UNKNOWN) in the set and no
    finite offset of the target.  On a set that respects the invariant
    this is all the contract of [add] asks for. *)
Theorem add_returns_changed (T : N) (off : Z) (s : S.t) (t : S.IdTable) :
  tbl_room 1 t →
  let a := S.add T off s t in
  (a.1.1 = true ↔ S.result (S.mayPointTo (T, off) s) t = false)
  ∧ (a.1.1 = true ↔ a.1.2 ≠ s)
  ∧ (S.result (S.pointsTo (T, Offset.UNKNOWN) s) t = true →
       a.1.1 = false ∧ a.1.2 = s)
  ∧ (S.result (S.pointsTo (T, Offset.UNKNOWN) s) t = false →
     off = Offset.UNKNOWN →
       a.1.1 = true
       ∧ S.result (S.pointsTo (T, Offset.UNKNOWN) a.1.2) a.2 = true
       ∧ ∀ k, finite k → S.result (S.pointsTo (T, k) a.1.2) a.2 = false).
Proof.
  intros Hroom a. subst a. rewrite add_eq. simpl.
  rewrite mayPointTo_result, !pointsTo_result. simpl.
  destruct (idOf_room T t Hroom) as [Hi _]. set (i := idOf T t) in *.
  split; [|split; [|split]].
  - rewrite add_at_result. by rewrite negb_true_iff.
  - apply add_at_changed.
  - intros Hu. unfold pointsTo_at in Hu. simpl in Hu.
    unfold add_at. by rewrite Hu.
  - intros Hu ->. split; [|split].
    + rewrite add_at_result, Hu. done.
    + rewrite ?pointsTo_result. simpl. rewrite ?idOf_reg. fold i.
      by destruct (add_at_unknown_present i T Offset.UNKNOWN s).
    + intros k Hk. rewrite ?pointsTo_result. simpl. rewrite ?idOf_reg. fold i.
      by apply add_at_unknown_purges.
Qed.

Lemma add_returns_changed_witness :
  (S.add exT Offset.UNKNOWN exThree.1.2 exThree.2).1.1 = true
  ↔ (S.add exT Offset.UNKNOWN exThree.1.2 exThree.2).1.2 ≠ exThree.1.2.
Proof.
  refine (proj1 (proj2
            (add_returns_changed exT Offset.UNKNOWN exThree.1.2 exThree.2 _))).
  split.
  - apply (registered_wf [exT]). simpl. lia.
  - vm_compute. reflexivity.
Defined.

(** C4: an [add] of the unknown offset is to purge the finite entries of
    the target and to insert (target, UNKNOWN).  On the set
    [{(exT, UNKNOWN), (exT, 3)}], which the union of [{(exT, UNKNOWN)}]
    and [{(exT, 3)}] leaves behind, [add(exT, UNKNOWN)] returns false
    and leaves the set as it is, (exT, 3) included, where purging the
    target and inserting (exT, UNKNOWN) gives another set. *)
Lemma add_unknown_does_not_purge :
  (S.add exT Offset.UNKNOWN exUnion.2 exThree.2).1 = (false, exUnion.2)
  ∧ S.result (S.pointsTo (exT, 3) exUnion.2) exThree.2 = true
  ∧ (S.addWithUnknownOffset exT exUnion.2 exThree.2).1.2 ≠ exUnion.2.
Proof.
  split; [|split].
  - vm_compute. reflexivity.
  - vm_compute. reflexivity.
  - intros H. vm_compute in H. discriminate H.
Qed.

(** C5 (as amended): after [add(p)], [mayPointTo(p)] is true, and
    [pointsTo(p)] is true when [p] has the unknown offset or
    (p.target, UNKNOWN) was not in the set before; a [remove(p)] after
    the [add(p)] leaves [pointsTo(p)] false. *)
Theorem add_pointsTo_remove (p : N * Z) (s : S.t) (t : S.IdTable) :
  let a := S.addPointer p s t in
  let r := S.remove p a.1.2 a.2 in
  S.result (S.mayPointTo p a.1.2) a.2 = true
  ∧ (S.result (S.pointsTo (p.1, Offset.UNKNOWN) s) t = false
     ∨ Offset.isUnknown p.2 = true →
       S.result (S.pointsTo p a.1.2) a.2 = true)
  ∧ S.result (S.pointsTo p r.1.2) r.2 = false.
Proof.
  destruct p as [T off]. intros a r. subst r a. unfold S.addPointer. simpl.
  rewrite add_eq, remove_eq. simpl.
  rewrite mayPointTo_result, !pointsTo_result. simpl.
  replace (idOf T (if S.isOffsetValid off then reg T (reg T t) else reg T t))
    with (idOf T t) by (destruct (S.isOffsetValid off); by rewrite ?reg_reg, idOf_reg).
  rewrite idOf_reg. set (i := idOf T t).
  assert (pointsTo_at i (T, Offset.UNKNOWN) s = false
          ∨ Offset.isUnknown off = true →
          pointsTo_at i (T, off) (add_at i T off s).2 = true) as Hpt.
  { intros Hor. unfold pointsTo_at, add_at in *. simpl in *.
    destruct (SparseBitvector.get (bitOf i Offset.UNKNOWN) (S.pointers s)) eqn:Hg.
    - destruct Hor as [?|Hu]; [done|].
      apply isUnknown_true in Hu as ->. by rewrite isOffsetValid_UNKNOWN.
    - destruct (Offset.isUnknown off) eqn:Hu.
      + apply isUnknown_true in Hu as ->. rewrite isOffsetValid_UNKNOWN. simpl.
        apply get_true. set_solver.
      + destruct (S.isOffsetValid off); simpl.
        * apply get_true. set_solver.
        * apply bool_decide_eq_true. set_solver. }
  split; [|split; [done|]].
  - destruct (pointsTo_at i (T, Offset.UNKNOWN) s) eqn:Hu.
    + apply orb_true_iff. right. unfold pointsTo_at in Hu. simpl in Hu.
      unfold add_at. by rewrite Hu.
    + rewrite Hpt; [done|by left].
  - unfold pointsTo_at, remove_at. simpl.
    destruct (S.isOffsetValid off); simpl.
    + apply get_false. set_solver.
    + apply bool_decide_eq_false. set_solver.
Qed.

Lemma add_pointsTo_remove_witness :
  S.result
    (S.pointsTo (exT, 3) (S.addPointer (exT, 3) S.new S.noIds).1.2)
    (S.addPointer (exT, 3) S.new S.noIds).2 = true.
Proof.
  refine (proj1 (proj2 (add_pointsTo_remove (exT, 3) S.new S.noIds)) _).
  left. vm_compute. reflexivity.
Defined.

(** C5 as stated fails: with (exT, UNKNOWN) in the set, [add] of
    (exT, 3) returns false and [pointsTo((exT, 3))] is false after
    it. *)
Lemma add_then_pointsTo_false :
  (S.addPointer (exT, 3) exUnknown.1.2 exUnknown.2).1.1 = false
  ∧ S.result
      (S.pointsTo (exT, 3) (S.addPointer (exT, 3) exUnknown.1.2 exUnknown.2).1.2)
      (S.addPointer (exT, 3) exUnknown.1.2 exUnknown.2).2 = false.
Proof. split; vm_compute; reflexivity. Qed.

(** After [add(T, UNKNOWN)] every finite [k] has [mayPointTo((T, k))]
    true, and it has [pointsTo((T, k))] false when the set respected
    the invariant for [T] before the call. *)
Theorem add_unknown_covers (T : N) (s : S.t) (t : S.IdTable) :
  tbl_room 1 t →
  let a := S.add T Offset.UNKNOWN s t in
  ∀ k, finite k →
       S.result (S.mayPointTo (T, k) a.1.2) a.2 = true
       ∧ (normal_for T t s → S.result (S.pointsTo (T, k) a.1.2) a.2 = false).
Proof.
  intros Hroom a k Hk. subst a. rewrite add_eq. simpl.
  rewrite mayPointTo_result, pointsTo_result. simpl. rewrite idOf_reg.
  destruct (idOf_room T t Hroom) as [Hi _]. set (i := idOf T t) in *.
  split.
  - apply orb_true_iff. right.
    by destruct (add_at_unknown_present i T Offset.UNKNOWN s).
  - intros Hnormal. unfold normal_for, holds in Hnormal.
    rewrite pointsTo_result in Hnormal. simpl in Hnormal. fold i in Hnormal.
    destruct (pointsTo_at i (T, Offset.UNKNOWN) s) eqn:Hu.
    + specialize (Hnormal eq_refl k Hk). rewrite pointsTo_result in Hnormal.
      simpl in Hnormal. fold i in Hnormal. apply not_true_is_false in Hnormal.
      unfold pointsTo_at in Hu. simpl in Hu. unfold add_at. by rewrite Hu.
    + by apply add_at_unknown_purges.
Qed.

Lemma add_unknown_covers_witness :
  S.result
    (S.pointsTo (exT, 3) (S.add exT Offset.UNKNOWN exThree.1.2 exThree.2).1.2)
    (S.add exT Offset.UNKNOWN exThree.1.2 exThree.2).2 = false.
Proof.
  refine (proj2 (add_unknown_covers exT exThree.1.2 exThree.2 _ 3 _) _).
  - split; [apply (registered_wf [exT]); simpl; lia | vm_compute; reflexivity].
  - split; [unfold is_u64; lia | unfold Offset.UNKNOWN; lia].
  - intros H. vm_compute in H. discriminate H.
Defined.

(** C6: after [add(T, UNKNOWN)] no finite offset of [T] is to be
    pointed to.  On the set [{(exT, UNKNOWN), (exT, 3)}], which the
    union of [{(exT, UNKNOWN)}] and [{(exT, 3)}] leaves behind,
    [pointsTo((exT, 3))] is still true after [add(exT, UNKNOWN)]. *)
Lemma add_unknown_keeps_finite :
  S.result
    (S.pointsTo (exT, 3)
       (S.add exT Offset.UNKNOWN exUnion.2 exThree.2).1.2)
    (S.add exT Offset.UNKNOWN exUnion.2 exThree.2).2 = true.
Proof. vm_compute. reflexivity. Qed.

(** ** Other targets are left alone *)

Lemma bitOf_block j o :
  1 ≤ j < 2 ^ 58 → is_u64 o → S.isOffsetValid o = true →
  64 * (j - 1) ≤ bitOf j o < 64 * j.
Proof.
  intros Hj Ho Hv. destruct (decide (o = Offset.UNKNOWN)) as [->|Hne].
  - rewrite bitOf_UNKNOWN_room by done. lia.
  - rewrite isOffsetValid_finite in Hv by done. apply bool_decide_eq_true in Hv.
    unfold is_u64 in Ho. rewrite bitOf_small_room by lia. lia.
Qed.

Lemma reg_other_None T T' t :
  T' ≠ T → S.ids t !! T' = None → S.ids (reg T t) !! T' = None.
Proof.
  intros Hne Hnone. unfold reg, S.table, S.getNodeID.
  destruct (S.ids t !! T); simpl; [done|]. by rewrite lookup_insert_ne.
Qed.

(** A target without identity has nothing in the bitvector. *)
Lemma unregistered_absent T o s t :
  tbl_room 1 t → bits_wf t s → S.ids t !! T = None →
  is_u64 o → S.isOffsetValid o = true →
  SparseBitvector.get (bitOf (idOf T t) o) (S.pointers s) = false.
Proof.
  intros Hroom Hbits Hnone Ho Hv. apply get_false. intros Hin.
  apply Hbits in Hin. destruct Hroom as [Hwf Hlen].
  destruct (getNodeID_new T t Hwf) as [Hid _]; [lia|done|].
  rewrite Hid in Hin.
  assert (1 ≤ Z.of_nat (length (S.idVector t)) + 1 < 2 ^ 58) as Hj by lia.
  pose proof (bitOf_block _ o Hj Ho Hv) as Hb. lia.
Qed.

Lemma frame_other T T' o s s' t :
  tbl_room 2 t → bits_wf t s →
  same_outside (idOf T t) T s s' → bits_wf (reg T t) s' →
  T' ≠ T → is_u64 o →
  pointsTo_at (idOf T' (reg T t)) (T', o) s' = pointsTo_at (idOf T' t) (T', o) s.
Proof.
  intros Hroom Hbits [Hsame Hlarge] Hbits' Hne Ho.
  assert (tbl_room 1 t) as Hroom1 by (destruct Hroom; split; [done|lia]).
  assert (tbl_room 1 (reg T t)) as Hroom' by (by apply reg_room).
  unfold pointsTo_at. simpl. destruct (S.isOffsetValid o) eqn:Hv.
  - destruct (S.ids t !! T') as [j|] eqn:Hj.
    + rewrite (idOf_known T' (reg T t) j) by (by apply reg_keeps).
      rewrite (idOf_known T' t j) by done.
      destruct Hroom1 as [Hwf Hlen].
      pose proof (tbl_wf_range _ _ _ Hwf Hj) as Hrange.
      assert (j ≠ idOf T t) as Hji.
      { intros ->. apply Hne. destruct Hroom' as [Hwf' _].
        eapply (tbl_wf_inj _ _ _ _ Hwf'); [by apply reg_keeps|].
        apply getNodeID_registers. }
      destruct (idOf_room T t) as [Hi _]; [by split|].
      assert (1 ≤ j < 2 ^ 58) as Hj' by lia.
      pose proof (bitOf_block j o Hj' Ho Hv) as Hb.
      unfold SparseBitvector.get. apply bool_decide_ext, Hsame. lia.
    + rewrite (unregistered_absent T' o s t) by done.
      apply unregistered_absent; try done. by apply reg_other_None.
  - apply bool_decide_ext, Hlarge. done.
Qed.

(** The three mutators stay inside the target's positions. *)
Lemma add_at_same_outside i T off s :
  1 ≤ i < 2 ^ 58 → is_u64 off → same_outside i T s (add_at i T off s).2.
Proof.
  intros Hi Ho. unfold add_at.
  destruct (SparseBitvector.get (bitOf i Offset.UNKNOWN) (S.pointers s)).
  { by split. }
  destruct (Offset.isUnknown off) eqn:Hu; [|destruct (S.isOffsetValid off) eqn:Hv];
    split; simpl; try done.
  - intros x Hx. rewrite elem_of_union, elem_of_singleton, unsetFrom_elem.
    rewrite posOf_end_room, posOf_room, bitOf_UNKNOWN_room by done.
    split; [intros [->|[? _]]; [lia|done]|].
    intros Hin. right. split; [done|lia].
  - intros p Hp. rewrite elem_of_filter. naive_solver.
  - intros x Hx. rewrite elem_of_union, elem_of_singleton.
    pose proof (bitOf_block i off Hi Ho Hv).
    split; [intros [->|?]; [lia|done]|by right].
  - intros p Hp. rewrite elem_of_union, elem_of_singleton.
    split; [intros [->|?]; [done|done]|by right].
Qed.

Lemma remove_at_same_outside i T o s :
  1 ≤ i < 2 ^ 58 → is_u64 o → same_outside i T s (remove_at i (T, o) s).2.
Proof.
  intros Hi Ho. unfold remove_at. simpl.
  destruct (S.isOffsetValid o) eqn:Hv; split; simpl; try done.
  - intros x Hx. rewrite elem_of_difference, elem_of_singleton.
    pose proof (bitOf_block i o Hi Ho Hv).
    split; [by intros [? _]|]. intros Hin. split; [done|]. intros ->. lia.
  - intros p Hp. rewrite elem_of_difference, elem_of_singleton.
    split; [by intros [? _]|]. intros Hin. split; [done|]. by intros ->.
Qed.

Lemma removeAny_at_same_outside i T s :
  1 ≤ i < 2 ^ 58 → same_outside i T s (removeAny_at i T s).
Proof.
  intros Hi. unfold removeAny_at. split; simpl.
  - intros x Hx. rewrite unsetFrom_elem, posOf_end_room, posOf_room by done.
    split; [by intros [? _]|]. intros Hin. done.
  - intros p Hp. rewrite elem_of_filter. naive_solver.
Qed.

(** They keep every bit inside the positions of registered targets. *)
Lemma bits_wf_reg T t s : bits_wf t s → bits_wf (reg T t) s.
Proof.
  intros Hbits x Hx. apply Hbits in Hx. pose proof (reg_length T t). lia.
Qed.

Lemma add_at_bits_wf T off s t :
  tbl_room 1 t → is_u64 off → bits_wf t s →
  bits_wf (reg T t) (add_at (idOf T t) T off s).2.
Proof.
  intros Hroom Ho Hbits. destruct (idOf_room T t Hroom) as [Hi Hle].
  pose proof (bits_wf_reg T t s Hbits) as Hbits'.
  unfold add_at.
  destruct (SparseBitvector.get _ (S.pointers s)); [done|].
  destruct (Offset.isUnknown off) eqn:Hu; [|destruct (S.isOffsetValid off) eqn:Hv];
    intros x; simpl; try apply Hbits'.
  - rewrite elem_of_union, elem_of_singleton, unsetFrom_elem.
    intros [->|[Hin _]]; [|by apply Hbits'].
    rewrite bitOf_UNKNOWN_room by done. lia.
  - rewrite elem_of_union, elem_of_singleton.
    intros [->|Hin]; [|by apply Hbits'].
    pose proof (bitOf_block (idOf T t) off Hi Ho Hv). lia.
Qed.

(** C9: [remove(Pointer(T, UNKNOWN))] takes (T, UNKNOWN) out and nothing
    else: [pointsTo] answers as before for every finite offset of [T]
    and for every pointer of another target, whereas after
    [removeAny(T)] no pointer of [T] is left. *)
Theorem remove_unknown_frame (T : N) (s : S.t) (t : S.IdTable) :
  tbl_room 2 t → bits_wf t s →
  let r := S.remove (T, Offset.UNKNOWN) s t in
  let q := S.removeAny T s t in
  S.result (S.pointsTo (T, Offset.UNKNOWN) r.1.2) r.2 = false
  ∧ (∀ k, finite k →
          S.result (S.pointsTo (T, k) r.1.2) r.2
          = S.result (S.pointsTo (T, k) s) t)
  ∧ (∀ T' o, T' ≠ T → is_u64 o →
          S.result (S.pointsTo (T', o) r.1.2) r.2
          = S.result (S.pointsTo (T', o) s) t)
  ∧ (∀ o, is_u64 o → S.result (S.pointsTo (T, o) q.1.2) q.2 = false).
Proof.
  intros Hroom Hbits r q. subst r q.
  assert (tbl_room 1 t) as Hroom1 by (destruct Hroom; split; [done|lia]).
  destruct (idOf_room T t Hroom1) as [Hi _].
  rewrite remove_eq. cbn [fst snd]. rewrite isOffsetValid_UNKNOWN.
  destruct (removeAny_eq T s t) as [-> ->].
  assert (S.pointers (remove_at (idOf T t) (T, Offset.UNKNOWN) s).2
          = S.pointers s ∖ {[ bitOf (idOf T t) Offset.UNKNOWN ]}
          ∧ S.largePointers (remove_at (idOf T t) (T, Offset.UNKNOWN) s).2
            = S.largePointers s) as [Hp Hl].
  { unfold remove_at. cbn [fst snd]. by rewrite isOffsetValid_UNKNOWN. }
  split; [|split; [|split]].
  - rewrite pointsTo_result. cbn [fst snd]. rewrite idOf_reg.
    unfold pointsTo_at. cbn [fst snd]. rewrite isOffsetValid_UNKNOWN, Hp.
    apply get_false. set_solver.
  - intros k [Hk Hfin]. rewrite !pointsTo_result. cbn [fst snd].
    rewrite idOf_reg. unfold pointsTo_at. cbn [fst snd]. rewrite Hp, Hl.
    destruct (S.isOffsetValid k) eqn:Hv; [|done].
    rewrite isOffsetValid_finite in Hv by done. apply bool_decide_eq_true in Hv.
    unfold is_u64 in Hk. unfold SparseBitvector.get. apply bool_decide_ext.
    rewrite elem_of_difference, elem_of_singleton.
    rewrite bitOf_UNKNOWN_room, bitOf_small_room by lia.
    split; [by intros [? _]|]. intros Hin. split; [done|lia].
  - intros T' o Hne Ho. rewrite !pointsTo_result. cbn [fst snd].
    apply frame_other; try done.
    + apply remove_at_same_outside; [done|].
      unfold is_u64, Offset.UNKNOWN. lia.
    + intros x Hx. apply (bits_wf_reg T t s Hbits). rewrite Hp in Hx.
      set_solver.
  - intros o Ho. rewrite pointsTo_result. cbn [fst snd]. rewrite idOf_reg.
    by apply removeAny_at_purges.
Qed.

Lemma remove_unknown_frame_witness :
  S.result
    (S.pointsTo (exT, 3) (S.remove (exT, Offset.UNKNOWN) exUnion.2 exThree.2).1.2)
    (S.remove (exT, Offset.UNKNOWN) exUnion.2 exThree.2).2
  = S.result (S.pointsTo (exT, 3) exUnion.2) exThree.2.
Proof.
  refine (proj1 (proj2 (remove_unknown_frame exT exUnion.2 exThree.2 _ _)) 3 _).
  - split; [apply (registered_wf [exT]); simpl; lia | vm_compute; reflexivity].
  - intros x Hx.
    assert (S.pointers exUnion.2 = {[ 63 ]} ∪ {[ 3 ]}) as Heq
      by (vm_compute; reflexivity).
    rewrite Heq, elem_of_union, !elem_of_singleton in Hx.
    assert (length (S.idVector exThree.2) = 1%nat) as -> by reflexivity.
    lia.
  - split; [unfold is_u64; lia | unfold Offset.UNKNOWN; lia].
Defined.

(** ** The invariant of the data model *)



Lemma normal_frame T s s' t :
  tbl_room 2 t → bits_wf t s → normal t s →
  same_outside (idOf T t) T s s' → bits_wf (reg T t) s' →
  normal_for T (reg T t) s' → normal (reg T t) s'.
Proof.
  intros Hroom Hbits Hnormal Hsame Hbits' HT T'.
  destruct (decide (T' = T)) as [->|Hne]; [done|].
  intros Hu k Hk Hk'. unfold holds in *. rewrite pointsTo_result in *.
  cbn [fst] in *.
  assert (is_u64 Offset.UNKNOWN) as HU by (unfold is_u64, Offset.UNKNOWN; lia).
  assert (is_u64 k) as Hk64 by (by destruct Hk).
  rewrite (frame_other T T' Offset.UNKNOWN s s' t) in Hu by done.
  rewrite (frame_other T T' k s s' t) in Hk' by done.
  apply (Hnormal T') with k; unfold holds; by rewrite ?pointsTo_result.
Qed.



(** [add] of a pair keeps the invariant. *)
Lemma add_normal T off s t :
  tbl_room 2 t → bits_wf t s → is_u64 off → normal t s →
  normal (S.add T off s t).2 (S.add T off s t).1.2
  ∧ bits_wf (S.add T off s t).2 (S.add T off s t).1.2.
Proof.
  intros Hroom Hbits Ho Hnormal. rewrite add_eq. cbn [fst snd].
  assert (tbl_room 1 t) as Hroom1 by (destruct Hroom; split; [done|lia]).
  destruct (idOf_room T t Hroom1) as [Hi _].
  split; [|by apply add_at_bits_wf].
  apply (normal_frame T s _ t Hroom Hbits Hnormal).
  - by apply add_at_same_outside.
  - by apply add_at_bits_wf.
  - intros Hu k Hk Hk'. unfold holds in *. rewrite pointsTo_result in *.
    cbn [fst] in *. rewrite idOf_reg in *. set (i := idOf T t) in *.
    destruct (pointsTo_at i (T, Offset.UNKNOWN) s) eqn:Hs.
    + assert ((add_at i T off s).2 = s) as Heq.
      { unfold pointsTo_at in Hs. cbn [snd] in Hs.
        rewrite isOffsetValid_UNKNOWN in Hs. unfold add_at. by rewrite Hs. }
      rewrite Heq in *.
      apply (Hnormal T) with k; unfold holds; by rewrite ?pointsTo_result.
    + destruct (Offset.isUnknown off) eqn:Hoff.
      * apply isUnknown_true in Hoff as ->.
        by rewrite add_at_unknown_purges in Hk'.
      * unfold pointsTo_at in Hs, Hu. cbn [snd] in Hs, Hu.
        rewrite isOffsetValid_UNKNOWN in Hs, Hu.
        unfold add_at in Hu. rewrite Hs, Hoff in Hu.
        destruct (S.isOffsetValid off) eqn:Hv; cbn [snd S.pointers] in Hu;
          [|congruence].
        apply get_true in Hu. apply get_false in Hs.
        apply elem_of_union in Hu as [Hu|Hu]; [|done].
        apply elem_of_singleton in Hu.
        apply isUnknown_false in Hoff.
        rewrite isOffsetValid_finite in Hv by done.
        apply bool_decide_eq_true in Hv. unfold is_u64 in Ho.
        rewrite bitOf_UNKNOWN_room, bitOf_small_room in Hu by lia. lia.
Qed.



(** The mutators keep the bits of a set inside the positions of the
    registered targets, so every set the methods build from the empty
    one satisfies [bits_wf]. *)
Lemma add_bits_wf T off s t :
  tbl_room 1 t → is_u64 off → bits_wf t s →
  bits_wf (S.add T off s t).2 (S.add T off s t).1.2.
Proof. intros. rewrite add_eq. cbn [fst snd]. by apply add_at_bits_wf. Qed.

Lemma addSet_bits_wf S0 s t :
  bits_wf t S0 → bits_wf t s → bits_wf t (S.addSet S0 s).2.
Proof.
  intros HS Hs x. unfold S.addSet, SparseBitvector.set_all. cbn [snd S.pointers].
  rewrite elem_of_union. intros [?|?]; [by apply Hs|by apply HS].
Qed.

Lemma remove_bits_wf p s t :
  bits_wf t s → bits_wf (S.remove p s t).2 (S.remove p s t).1.2.
Proof.
  intros Hs. rewrite remove_eq. unfold remove_at. cbn [fst snd].
  destruct (S.isOffsetValid p.2); cbn [snd]; [|done].
  intros x Hx. apply (bits_wf_reg p.1 t s Hs). cbn [S.pointers] in Hx.
  set_solver.
Qed.

Lemma removeAny_bits_wf T s t :
  bits_wf t s → bits_wf (S.removeAny T s t).2 (S.removeAny T s t).1.2.
Proof.
  intros Hs. destruct (removeAny_eq T s t) as [-> ->].
  intros x Hx. apply (bits_wf_reg T t s Hs).
  unfold removeAny_at in Hx. cbn [S.pointers] in Hx.
  apply unsetFrom_elem in Hx. by destruct Hx.
Qed.

Lemma normal_new t : normal t S.new.
Proof.
  intros T Hu. unfold holds in Hu. rewrite pointsTo_result in Hu.
  unfold pointsTo_at in Hu. cbn [snd] in Hu.
  rewrite isOffsetValid_UNKNOWN in Hu. apply get_true in Hu.
  by apply not_elem_of_empty in Hu.
Qed.

Lemma bits_wf_new t : bits_wf t S.new.
Proof. intros x Hx. by apply not_elem_of_empty in Hx. Qed.

Lemma tbl_room_exUnknown : tbl_room 2 exUnknown.2.
Proof. split; [apply (registered_wf [exT]); simpl; lia | vm_compute; reflexivity]. Qed.

(** C1: the union [add(const SmallOffsetsPointsToSet&)] breaks the
    invariant that [add] of a pair, [remove] and [removeAny] keep.  The
    set [{(exT, UNKNOWN)}] and the set [{(exT, 3)}], both made by [add]
    from the empty set, respect it; after the first has added the
    second it holds (exT, UNKNOWN) together with (exT, 3). *)
Theorem addSet_breaks_invariant :
  normal exThree.2 exUnknown.1.2
  ∧ normal exThree.2 exThree.1.2
  ∧ holds exThree.2 exUnion.2 (exT, Offset.UNKNOWN)
  ∧ holds exThree.2 exUnion.2 (exT, 3)
  ∧ ¬ normal exThree.2 exUnion.2.
Proof.
  assert (exThree.2 = exUnknown.2) as Ht by (vm_compute; reflexivity).
  assert (holds exThree.2 exUnion.2 (exT, Offset.UNKNOWN)) as Hu
    by (vm_compute; reflexivity).
  assert (holds exThree.2 exUnion.2 (exT, 3)) as H3
    by (vm_compute; reflexivity).
  split; [|split; [|split; [done|split; [done|]]]].
  - rewrite Ht. unfold exUnknown. apply add_normal.
    + split; [apply tbl_wf_noIds | simpl; lia].
    + apply bits_wf_new.
    + unfold is_u64, Offset.UNKNOWN. lia.
    + apply normal_new.
  - unfold exThree. apply add_normal.
    + apply tbl_room_exUnknown.
    + apply bits_wf_new.
    + unfold is_u64. lia.
    + apply normal_new.
  - intros Hnormal. apply (Hnormal exT Hu 3); [|done].
    split; [unfold is_u64; lia | unfold Offset.UNKNOWN; lia].
Qed.

(** * Further properties of the code *)

(** ** Offsets, pointers and memory objects of AnalysisGeneric.h *)

(** X1: [a += o] leaves in [a] what [a + o] returns. *)
Theorem Offset_plus_assign_is_plus (a o : Z) :
  Offset.plus_assign a o = Offset.plus a o.
Proof.
  unfold Offset.plus_assign, Offset.plus.
  destruct (Offset.isUnknown a) eqn:Ha; simpl; [|done].
  by apply isUnknown_true in Ha.
Qed.

(** X2: addition of offsets is commutative, and for finite [a], [b],
    [c] the two groupings [(a + b) + c] and [a + (b + c)] agree exactly
    when the partial sums [a + b] and [b + c] are both UNKNOWN or both
    not, or the whole sum is the all-ones value.  So the addition is
    associative as long as no partial sum comes out as UNKNOWN, and it
    is not associative in general: [(2^64 - 2 + 1) + 1] is UNKNOWN and
    [2^64 - 2 + (1 + 1)] is 0. *)
Theorem Offset_plus_assoc (a b c : Z) :
  finite a → finite b → finite c →
  Offset.plus a b = Offset.plus b a
  ∧ (Offset.plus (Offset.plus a b) c = Offset.plus a (Offset.plus b c)
     ↔ Offset.isUnknown (Offset.plus a b) = Offset.isUnknown (Offset.plus b c)
       ∨ wrap64 (a + b + c) = Offset.UNKNOWN)
  ∧ Offset.plus (Offset.plus (2 ^ 64 - 2) 1) 1
    ≠ Offset.plus (2 ^ 64 - 2) (Offset.plus 1 1).
Proof.
  intros [Ha Hfa] [Hb Hfb] [Hc Hfc].
  apply isUnknown_false in Hfa, Hfb, Hfc.
  split; [|split].
  - unfold Offset.plus. rewrite Hfa, Hfb. simpl. by rewrite Z.add_comm.
  - assert (Offset.plus a b = wrap64 (a + b)) as ->
      by (unfold Offset.plus; by rewrite Hfa, Hfb).
    assert (Offset.plus b c = wrap64 (b + c)) as ->
      by (unfold Offset.plus; by rewrite Hfb, Hfc).
    assert (wrap64 (wrap64 (a + b) + c) = wrap64 (a + b + c)) as Hl
      by (unfold wrap64; by rewrite Z.add_mod_idemp_l by lia).
    assert (wrap64 (a + wrap64 (b + c)) = wrap64 (a + b + c)) as Hr.
    { unfold wrap64. rewrite Z.add_mod_idemp_r by lia. by rewrite Z.add_assoc. }
    unfold Offset.plus. rewrite Hfa, Hfc, orb_false_r, Hl, Hr. cbn [orb].
    destruct (Offset.isUnknown (wrap64 (a + b)));
      destruct (Offset.isUnknown (wrap64 (b + c))).
    + split; [by left|done].
    + split; [by right|]. intros [?|?]; [done|congruence].
    + split; [by right|]. intros [?|?]; [done|congruence].
    + split; [by left|done].
  - vm_compute. discriminate.
Qed.

Lemma Offset_plus_assoc_witness :
  Offset.plus (Offset.plus 1 2) 3 = Offset.plus 1 (Offset.plus 2 3).
Proof.
  assert (finite 1 ∧ finite 2 ∧ finite 3) as (H1 & H2 & H3).
  { unfold finite, is_u64, Offset.UNKNOWN. lia. }
  refine (proj2 (proj1 (proj2 (Offset_plus_assoc 1 2 3 H1 H2 H3))) _).
  left. reflexivity.
Defined.

(** X3: [Pointer::operator<] is a strict total order: no pointer is
    below itself, the relation is transitive, and of two different
    pointers exactly one is below the other. *)
Theorem Pointer_lt_strict_total (p q r : N * Z) :
  Generic.Pointer_lt p p = false
  ∧ (Generic.Pointer_lt p q = true → Generic.Pointer_lt q r = true →
     Generic.Pointer_lt p r = true)
  ∧ (Generic.Pointer_lt p q = true → Generic.Pointer_lt q p = false)
  ∧ (p ≠ q → Generic.Pointer_lt p q = true ∨ Generic.Pointer_lt q p = true).
Proof.
  destruct p as [po pf], q as [qo qf], r as [ro rf].
  unfold Generic.Pointer_lt, Offset.lt. simpl.
  repeat split.
  - rewrite bool_decide_eq_true_2 by done. apply bool_decide_eq_false. lia.
  - repeat case_bool_decide; try done; intros _ _; lia.
  - repeat case_bool_decide; try done; intros _; lia.
  - intros Hne. repeat case_bool_decide; try (by left); try (by right);
      exfalso; try lia.
    apply Hne. f_equal; lia.
Qed.

Lemma Pointer_lt_strict_total_witness :
  Generic.Pointer_lt (1%N, 8) (2%N, 0) = true.
Proof.
  refine (proj1 (proj2 (Pointer_lt_strict_total (1%N, 8) (1%N, 9) (2%N, 0)))
            _ _); reflexivity.
Defined.

(** X4: on an object that is not unknown, [addPointsTo(off, ptr)]
    returns whether [ptr] is new at [off]; afterwards [ptr] is recorded
    at [off], the rest of the map is as before, the object as a whole
    is as before when the call returned false, and the same call again
    returns false and changes nothing. *)
Theorem addPointsTo_records (off : Z) (ptr : N * Z) (m : Generic.MemoryObj) :
  Generic.isUnknown m = false →
  let r := Generic.addPointsTo off ptr m in
  let at_ (x : Generic.MemoryObj) (o : Z) := default ∅ (Generic.pointsTo x !! o) in
  (r.1 = true ↔ ptr ∉ at_ m off)
  ∧ ptr ∈ at_ r.2 off
  ∧ (∀ q, q ≠ ptr → q ∈ at_ r.2 off ↔ q ∈ at_ m off)
  ∧ (∀ o, o ≠ off → Generic.pointsTo r.2 !! o = Generic.pointsTo m !! o)
  ∧ (r.1 = false → r.2 = m)
  ∧ Generic.addPointsTo off ptr r.2 = (false, r.2).
Proof.
  intros Hk r at_. subst r at_. cbv beta. unfold Generic.addPointsTo.
  rewrite Hk. cbn [fst snd Generic.pointsTo].
  split; [apply bool_decide_eq_true|].
  split; [rewrite lookup_insert_eq; cbn [default]; set_solver|].
  split; [intros q Hq; rewrite lookup_insert_eq; cbn [default]; set_solver|].
  split; [by intros o Ho; rewrite lookup_insert_ne|].
  split.
  - intros Hin%bool_decide_eq_false. apply dec_stable in Hin.
    destruct m as [n pt sz]. cbn in *. f_equal.
    destruct (pt !! off) as [X|] eqn:HX; cbn in Hin; [|set_solver].
    apply insert_id. rewrite HX. f_equal. set_solver.
  - unfold Generic.isUnknown in *. cbn [Generic.node]. rewrite Hk.
    cbn [Generic.pointsTo Generic.node Generic.size].
    rewrite lookup_insert_eq, insert_insert_eq. cbn [default].
    f_equal; [apply bool_decide_eq_false; set_solver|].
    f_equal. f_equal. set_solver.
Qed.

Lemma addPointsTo_records_witness :
  (1%N, 4) ∈ default ∅ (Generic.pointsTo
     (Generic.addPointsTo 8 (1%N, 4) (Generic.newMemoryObj (Some 5%N) 0)).2 !! 8).
Proof.
  refine (proj1 (proj2 (addPointsTo_records 8 (1%N, 4)
                          (Generic.newMemoryObj (Some 5%N) 0) _))).
  reflexivity.
Defined.

(** X5: [setUnknown] returns true exactly on an object that was not
    unknown; after it the object is unknown, its map is empty unless
    it was unknown already, every [addPointsTo] is refused without a
    change, and a second [setUnknown] returns false without a change. *)
Theorem setUnknown_closes (m : Generic.MemoryObj) (off : Z) (ptr : N * Z) :
  let u := (Generic.setUnknown m).2 in
  (Generic.setUnknown m).1 = negb (Generic.isUnknown m)
  ∧ Generic.isUnknown u = true
  ∧ (Generic.isUnknown m = false → Generic.pointsTo u = ∅)
  ∧ Generic.addPointsTo off ptr u = (false, u)
  ∧ Generic.setUnknown u = (false, u).
Proof.
  unfold Generic.setUnknown, Generic.addPointsTo.
  destruct (Generic.isUnknown m) eqn:Hm; cbn [fst snd negb].
  - rewrite Hm. done.
  - unfold Generic.isUnknown. cbn [Generic.node Generic.pointsTo].
    rewrite bool_decide_eq_true_2 by done. done.
Qed.

Lemma setUnknown_closes_witness :
  Generic.pointsTo
    (Generic.setUnknown
       (Generic.addPointsTo 8 (1%N, 4) (Generic.newMemoryObj (Some 5%N) 0)).2).2
  = ∅.
Proof.
  refine (proj1 (proj2 (proj2 (setUnknown_closes
            (Generic.addPointsTo 8 (1%N, 4) (Generic.newMemoryObj (Some 5%N) 0)).2
            0 (0%N, 0)))) _).
  reflexivity.
Defined.

(** ** Removing from a points-to set *)

(** X6: [remove(p)] returns whether [p] was in the set; when it was
    not, the set is left as it is, and in either case [p] is not in the
    set afterwards. *)
Theorem remove_returns_presence (p : N * Z) (s : S.t) (t : S.IdTable) :
  let r := S.remove p s t in
  r.1.1 = S.result (S.pointsTo p s) t
  ∧ (r.1.1 = false → r.1.2 = s)
  ∧ S.result (S.pointsTo p r.1.2) r.2 = false.
Proof.
  intros r. subst r. rewrite remove_eq. cbn [fst snd].
  rewrite !pointsTo_result.
  replace (idOf p.1 (if S.isOffsetValid p.2 then reg p.1 t else t))
    with (idOf p.1 t) by (destruct (S.isOffsetValid p.2); by rewrite ?idOf_reg).
  unfold remove_at, pointsTo_at.
  destruct (S.isOffsetValid p.2); cbn [fst snd S.pointers S.largePointers].
  - split; [done|]. split; [|apply get_false; set_solver].
    intros Hg%get_false. apply set_eq_mk; [set_solver|done].
  - split; [done|]. split; [|apply bool_decide_eq_false; set_solver].
    intros Hg%bool_decide_eq_false. apply set_eq_mk; [done|set_solver].
Qed.

Lemma remove_returns_presence_witness :
  (S.remove (exT, 5) exThree.1.2 exThree.2).1.2 = exThree.1.2.
Proof.
  refine (proj1 (proj2 (remove_returns_presence (exT, 5) exThree.1.2 exThree.2))
            _).
  vm_compute. reflexivity.
Defined.

Lemma foldl_unset_changed l c b :
  NoDup l →
  (foldl (λ '(changed, b) i,
            let '(r, b') := SparseBitvector.unset i b in (changed || r, b'))
         (c, b) l).1
  = c || existsb (λ i, SparseBitvector.get i b) l.
Proof.
  intros Hnd. revert c b. induction Hnd as [|x l Hx Hnd IH]; intros c b; simpl.
  { by rewrite orb_false_r. }
  rewrite IH, <- orb_assoc. f_equal. f_equal.
  apply eq_true_iff_eq. rewrite !existsb_exists.
  split; intros (y & Hy & Hg); exists y; (split; [done|]);
    apply get_true; apply get_true in Hg; apply list_elem_of_In in Hy;
    set_solver.
Qed.

Lemma existsb_elements_set `{Countable A} (f : A → bool) (X : gset A) :
  existsb f (elements X) = true ↔ ∃ x, x ∈ X ∧ f x = true.
Proof.
  rewrite existsb_exists. split; intros (x & Hin & Hf); exists x.
  - split; [|done]. apply elem_of_elements. by apply list_elem_of_In.
  - split; [|done]. apply list_elem_of_In. by apply elem_of_elements.
Qed.

(** X7: [removeAny(target)] returns what [pointsToTarget(target)]
    answered before the call, and [pointsToTarget(target)] is false
    after it. *)
Theorem removeAny_returns_pointsToTarget (T : N) (s : S.t) (t : S.IdTable) :
  (S.removeAny T s t).1.1 = S.result (S.pointsToTarget T s) t
  ∧ S.result (S.pointsToTarget T (S.removeAny T s t).1.2) (S.removeAny T s t).2
    = false.
Proof.
  unfold S.result, S.removeAny, S.pointsToTarget, S.getNodePosition.
  unfold S.bind, S.ret. rewrite getNodeID_eq. fold (posOf (idOf T t)).
  set (pos := posOf (idOf T t)).
  pose proof (foldl_unset_changed
                (seqZ pos (wrap64 (pos + 64) - pos)) false (S.pointers s)
                (NoDup_seqZ _ _)) as Hc.
  pose proof (foldl_unset (seqZ pos (wrap64 (pos + 64) - pos)) false
                (S.pointers s)) as Hb.
  unfold S.unsetFrom.
  destruct (foldl _ _ _) as [c b] eqn:Hf. cbn [fst snd] in *.
  rewrite getNodeID_eq, idOf_reg. fold (posOf (idOf T t)). fold pos.
  cbn [fst snd S.pointers S.largePointers]. split.
  - rewrite Hc. simpl. f_equal. apply eq_true_iff_eq.
    rewrite existsb_elements_set, bool_decide_eq_true. split.
    + intros Hne. apply set_choose_L in Hne as [x Hx].
      apply elem_of_filter in Hx as [Hx1 Hx2]. exists x.
      split; [done|by apply bool_decide_eq_true].
    + intros (x & Hx & Hf2%bool_decide_eq_true) Hempty.
      assert (x ∈ filter (λ p : N * Z, p.1 = T) (S.largePointers s)) as Hin
        by (by apply elem_of_filter).
      rewrite Hempty in Hin. by apply not_elem_of_empty in Hin.
  - apply orb_false_iff. split; apply not_true_is_false.
    + rewrite existsb_exists. intros (x & Hx & Hg%get_true).
      rewrite Hb in Hg. apply list_elem_of_In in Hx.
      apply elem_of_difference in Hg as [_ Hg]. apply Hg.
      by apply elem_of_list_to_set.
    + rewrite existsb_elements_set.
      intros (x & Hx & Hf2%bool_decide_eq_true).
      apply elem_of_filter in Hx as [Hx _]. done.
Qed.

(** ** The union of two points-to sets *)

(** X8: after [A.add(B)] a pointer is in [A] exactly when it was in [A]
    or is in [B]; the call returns true exactly when [A] changed. *)
Theorem addSet_is_union (B A : S.t) (p : N * Z) (t : S.IdTable) :
  S.result (S.pointsTo p (S.addSet B A).2) t
  = S.result (S.pointsTo p A) t || S.result (S.pointsTo p B) t
  ∧ ((S.addSet B A).1 = true ↔ (S.addSet B A).2 ≠ A).
Proof.
  unfold S.addSet, SparseBitvector.set_all. cbn [fst snd]. split.
  - rewrite !pointsTo_result. unfold pointsTo_at.
    cbn [S.pointers S.largePointers].
    destruct (S.isOffsetValid p.2); apply eq_true_iff_eq;
      rewrite orb_true_iff, ?get_true, ?bool_decide_eq_true; set_solver.
  - rewrite orb_true_iff, !bool_decide_eq_true. split.
    + intros Hor Heq. apply (f_equal S.pointers) in Heq as Hp.
      apply (f_equal S.largePointers) in Heq as Hl. cbn in Hp, Hl.
      destruct Hor as [Hn|Hn]; apply Hn; set_solver.
    + intros Hne.
      destruct (decide (S.pointers B ⊆ S.pointers A)) as [Hp|Hp]; [|by left].
      destruct (decide (S.largePointers B ⊆ S.largePointers A)) as [Hl|Hl];
        [|by right].
      exfalso. apply Hne. apply set_eq_mk; set_solver.
Qed.

(** X9: the union is idempotent and commutative: adding [B] a second
    time returns false and changes nothing, and [A.add(B)] leaves in
    [A] what [B.add(A)] leaves in [B]. *)
Theorem addSet_idempotent_commutative (B A : S.t) :
  S.addSet B (S.addSet B A).2 = (false, (S.addSet B A).2)
  ∧ (S.addSet B A).2 = (S.addSet A B).2.
Proof.
  unfold S.addSet, SparseBitvector.set_all.
  cbn [fst snd S.pointers S.largePointers]. split.
  - f_equal.
    + apply orb_false_iff. split; apply bool_decide_eq_false; set_solver.
    + f_equal; set_solver.
  - f_equal; set_solver.
Qed.

(** ** Emptiness *)

(** X10: [empty()] holds of the default-constructed set and of no
    other, so never of a set that [add] has returned, whatever [add]
    was given; [clear()] makes a set empty. *)
Theorem empty_iff_new (T : N) (off : Z) (s : S.t) (t : S.IdTable) :
  (S.empty s = true ↔ s = S.new)
  ∧ S.empty (S.add T off s t).1.2 = false
  ∧ S.empty (S.clear s) = true.
Proof.
  assert (∀ s, S.empty s = true ↔ s = S.new) as Hempty.
  { intros s0. unfold S.empty, SparseBitvector.size.
    rewrite andb_true_iff, !bool_decide_eq_true. split.
    - intros [Hp Hl]. assert (size (S.pointers s0) = 0%nat) as Hp' by lia.
      apply size_empty_iff in Hp', Hl.
      apply leibniz_equiv in Hp', Hl. destruct s0. cbn in *. by subst.
    - intros ->. done. }
  split; [apply Hempty|]. split; [|by apply Hempty].
  apply not_true_is_false. rewrite Hempty, add_eq. cbn [fst snd].
  intros Hnew. pose proof (add_at_result (idOf T t) T off s) as Hres.
  assert (pointsTo_at (idOf T t) (T, off) S.new = false
          ∧ pointsTo_at (idOf T t) (T, Offset.UNKNOWN) S.new = false) as [H1 H2].
  { unfold pointsTo_at. cbn.
    split; [destruct (S.isOffsetValid off)|]; done. }
  pose proof (add_at_changed (idOf T t) T off s) as Hch.
  unfold add_at in *.
  destruct (SparseBitvector.get _ (S.pointers s)) eqn:Hg.
  { cbn [snd] in Hnew. subst s. done. }
  destruct (Offset.isUnknown off); [|destruct (S.isOffsetValid off)];
    cbn [snd] in Hnew; apply (f_equal S.pointers) in Hnew as Hp;
    apply (f_equal S.largePointers) in Hnew as Hl; cbn in Hp, Hl; set_solver.
Qed.

(** ** What a mutator leaves alone *)

Lemma bitOf_inj i j o o' :
  1 ≤ i < 2 ^ 58 → 1 ≤ j < 2 ^ 58 → is_u64 o → is_u64 o' →
  S.isOffsetValid o = true → S.isOffsetValid o' = true →
  bitOf i o = bitOf j o' → i = j ∧ o = o'.
Proof.
  intros Hi Hj Ho Ho' Hv Hv' Heq. unfold is_u64 in *.
  destruct (decide (o = Offset.UNKNOWN)) as [->|Hne];
    destruct (decide (o' = Offset.UNKNOWN)) as [->|Hne'];
    rewrite ?bitOf_UNKNOWN_room in Heq by done.
  - split; [lia|done].
  - rewrite isOffsetValid_finite in Hv' by done.
    apply bool_decide_eq_true in Hv'.
    rewrite bitOf_small_room in Heq by lia. lia.
  - rewrite isOffsetValid_finite in Hv by done.
    apply bool_decide_eq_true in Hv.
    rewrite bitOf_small_room in Heq by lia. lia.
  - rewrite isOffsetValid_finite in Hv, Hv' by done.
    apply bool_decide_eq_true in Hv, Hv'.
    rewrite !bitOf_small_room in Heq by lia. lia.
Qed.

Lemma tbl_room_le n m t : m ≤ n → tbl_room n t → tbl_room m t.
Proof. intros Hle [Hwf Hlen]. split; [done|lia]. Qed.

(** X11: [add(T, off)] changes the answer of [pointsTo] for no pointer
    of another target, and when [off] is finite for no pointer other
    than (T, off). *)
Theorem add_frame (T : N) (off : Z) (q : N * Z) (s : S.t) (t : S.IdTable) :
  tbl_room 2 t → bits_wf t s → is_u64 off → is_u64 q.2 →
  q.1 ≠ T ∨ (off ≠ Offset.UNKNOWN ∧ q ≠ (T, off)) →
  S.result (S.pointsTo q (S.add T off s t).1.2) (S.add T off s t).2
  = S.result (S.pointsTo q s) t.
Proof.
  intros Hroom Hbits Ho Hq Hor. destruct q as [T' o]. cbn [fst snd] in *.
  rewrite add_eq. cbn [fst snd]. rewrite !pointsTo_result. cbn [fst].
  pose proof (tbl_room_le 2 1 t ltac:(lia) Hroom) as Hroom1.
  destruct (idOf_room T t Hroom1) as [Hi _].
  destruct (decide (T' = T)) as [->|Hne].
  2:{ apply frame_other; try done.
      - by apply add_at_same_outside.
      - by apply add_at_bits_wf. }
  destruct Hor as [?|[Hfin Hqne]]; [done|].
  assert (o ≠ off) as Hoff by congruence.
  rewrite idOf_reg. set (i := idOf T t) in *.
  unfold pointsTo_at, add_at. cbn [snd].
  destruct (SparseBitvector.get (bitOf i Offset.UNKNOWN) (S.pointers s)); [done|].
  rewrite (proj2 (isUnknown_false off)) by done.
  destruct (S.isOffsetValid off) eqn:Hv; cbn [snd S.pointers S.largePointers];
    destruct (S.isOffsetValid o) eqn:Hv'; try done.
  - unfold SparseBitvector.get. apply bool_decide_ext.
    rewrite elem_of_union, elem_of_singleton. split; [|by right].
    intros [Heq|?]; [|done].
    destruct (bitOf_inj i i o off) as [_ ?]; done.
  - apply bool_decide_ext. rewrite elem_of_union, elem_of_singleton.
    split; [|by right]. intros [Heq|?]; [congruence|done].
Qed.

Lemma add_frame_witness :
  S.result (S.pointsTo (exT, 3) (S.add exT 4 exThree.1.2 exThree.2).1.2)
           (S.add exT 4 exThree.1.2 exThree.2).2
  = S.result (S.pointsTo (exT, 3) exThree.1.2) exThree.2.
Proof.
  assert (exThree.2 = exUnknown.2) as Ht by (vm_compute; reflexivity).
  apply add_frame.
  - rewrite Ht. apply tbl_room_exUnknown.
  - unfold exThree. apply add_bits_wf.
    + apply (tbl_room_le 2 1); [lia|apply tbl_room_exUnknown].
    + unfold is_u64. lia.
    + apply bits_wf_new.
  - unfold is_u64. lia.
  - unfold is_u64. simpl. lia.
  - right. split; [unfold Offset.UNKNOWN; lia|]. intros [=].
Defined.

(** X12: [remove(p)] changes the answer of [pointsTo] for no pointer
    other than [p]. *)
Theorem remove_frame (p q : N * Z) (s : S.t) (t : S.IdTable) :
  tbl_room 2 t → bits_wf t s → is_u64 p.2 → is_u64 q.2 → q ≠ p →
  S.result (S.pointsTo q (S.remove p s t).1.2) (S.remove p s t).2
  = S.result (S.pointsTo q s) t.
Proof.
  intros Hroom Hbits Hp Hq Hne. destruct p as [T o], q as [T' o'].
  cbn [fst snd] in *. rewrite remove_eq. cbn [fst snd].
  rewrite !pointsTo_result. cbn [fst].
  pose proof (tbl_room_le 2 1 t ltac:(lia) Hroom) as Hroom1.
  destruct (idOf_room T t Hroom1) as [Hi _].
  destruct (S.isOffsetValid o) eqn:Hv.
  - destruct (decide (T' = T)) as [->|HT].
    + rewrite idOf_reg. unfold pointsTo_at, remove_at. cbn [fst snd].
      rewrite Hv. cbn [snd S.pointers S.largePointers].
      destruct (S.isOffsetValid o') eqn:Hv'; [|done].
      unfold SparseBitvector.get. apply bool_decide_ext.
      rewrite elem_of_difference, elem_of_singleton.
      split; [by intros [? _]|]. intros Hin. split; [done|].
      intros Heq. destruct (bitOf_inj _ _ o' o Hi Hi) as [_ ?]; try done.
      congruence.
    + apply frame_other; try done.
      * by apply remove_at_same_outside.
      * intros x Hx. apply (bits_wf_reg T t s Hbits).
        unfold remove_at in Hx. cbn [fst snd] in Hx. rewrite Hv in Hx.
        cbn [snd S.pointers] in Hx. set_solver.
  - unfold pointsTo_at, remove_at. cbn [fst snd]. rewrite Hv.
    cbn [snd S.pointers S.largePointers].
    destruct (S.isOffsetValid o'); [done|].
    apply bool_decide_ext. set_solver.
Qed.

Lemma remove_frame_witness :
  S.result
    (S.pointsTo (exT, Offset.UNKNOWN) (S.remove (exT, 3) exUnion.2 exThree.2).1.2)
    (S.remove (exT, 3) exUnion.2 exThree.2).2
  = S.result (S.pointsTo (exT, Offset.UNKNOWN) exUnion.2) exThree.2.
Proof.
  assert (exThree.2 = exUnknown.2) as Ht by (vm_compute; reflexivity).
  apply remove_frame.
  - rewrite Ht. apply tbl_room_exUnknown.
  - apply addSet_bits_wf.
    + unfold exThree. apply add_bits_wf.
      * apply (tbl_room_le 2 1); [lia|apply tbl_room_exUnknown].
      * unfold is_u64. lia.
      * apply bits_wf_new.
    + rewrite Ht. unfold exUnknown. apply add_bits_wf.
      * split; [apply tbl_wf_noIds|simpl; lia].
      * unfold is_u64, Offset.UNKNOWN. lia.
      * apply bits_wf_new.
  - unfold is_u64. simpl. lia.
  - unfold is_u64, Offset.UNKNOWN. simpl. lia.
  - intros [=].
Defined.

(** X13: [removeAny(T)] changes the answer of [pointsTo] for no pointer
    of another target. *)
Theorem removeAny_frame (T : N) (q : N * Z) (s : S.t) (t : S.IdTable) :
  tbl_room 2 t → bits_wf t s → is_u64 q.2 → q.1 ≠ T →
  S.result (S.pointsTo q (S.removeAny T s t).1.2) (S.removeAny T s t).2
  = S.result (S.pointsTo q s) t.
Proof.
  intros Hroom Hbits Hq Hne. destruct q as [T' o]. cbn [fst snd] in *.
  pose proof (removeAny_bits_wf T s t Hbits) as Hbits'.
  destruct (removeAny_eq T s t) as [Hs Ht]. rewrite Hs, Ht in *.
  rewrite !pointsTo_result. cbn [fst].
  pose proof (tbl_room_le 2 1 t ltac:(lia) Hroom) as Hroom1.
  destruct (idOf_room T t Hroom1) as [Hi _].
  apply frame_other; try done. by apply removeAny_at_same_outside.
Qed.

Lemma removeAny_frame_witness :
  S.result
    (S.pointsTo (exT, 3) (S.removeAny 9%N exThree.1.2 exThree.2).1.2)
    (S.removeAny 9%N exThree.1.2 exThree.2).2
  = S.result (S.pointsTo (exT, 3) exThree.1.2) exThree.2.
Proof.
  assert (exThree.2 = exUnknown.2) as Ht by (vm_compute; reflexivity).
  apply removeAny_frame.
  - rewrite Ht. apply tbl_room_exUnknown.
  - unfold exThree. apply add_bits_wf.
    + apply (tbl_room_le 2 1); [lia|apply tbl_room_exUnknown].
    + unfold is_u64. lia.
    + apply bits_wf_new.
  - unfold is_u64. simpl. lia.
  - simpl. unfold exT. lia.
Defined.

(** ** Invariants the mutators keep *)



Lemma add_at_large_wf i T off s :
  is_u64 off → large_wf s → large_wf (add_at i T off s).2.
Proof.
  intros Ho Hl. unfold add_at.
  destruct (SparseBitvector.get _ (S.pointers s)); [done|].
  destruct (Offset.isUnknown off); [|destruct (S.isOffsetValid off) eqn:Hv];
    intros p; cbn [snd S.largePointers]; try apply Hl.
  - unfold removeAny_at. cbn [S.largePointers]. rewrite elem_of_filter.
    intros [_ ?]. by apply Hl.
  - rewrite elem_of_union, elem_of_singleton. intros [->|?]; [done|by apply Hl].
Qed.

(** X15: the mutators keep the representation sound: the table stays a
    numbering, every bit stays inside the 64 positions of a registered
    target, and the overflow set only ever holds finite offsets above
    62. *)
Theorem mutators_keep_representation
    (T : N) (off : Z) (B s : S.t) (t : S.IdTable) :
  tbl_room 1 t → bits_wf t s → large_wf s → is_u64 off →
  (tbl_wf (S.add T off s t).2
   ∧ bits_wf (S.add T off s t).2 (S.add T off s t).1.2
   ∧ large_wf (S.add T off s t).1.2)
  ∧ (tbl_wf (S.remove (T, off) s t).2
     ∧ bits_wf (S.remove (T, off) s t).2 (S.remove (T, off) s t).1.2
     ∧ large_wf (S.remove (T, off) s t).1.2)
  ∧ (tbl_wf (S.removeAny T s t).2
     ∧ bits_wf (S.removeAny T s t).2 (S.removeAny T s t).1.2
     ∧ large_wf (S.removeAny T s t).1.2)
  ∧ (bits_wf t B → large_wf B →
     bits_wf t (S.addSet B s).2 ∧ large_wf (S.addSet B s).2).
Proof.
  intros Hroom Hbits Hlarge Ho.
  assert (tbl_wf (reg T t)) as Hwf'.
  { destruct Hroom as [Hwf Hlen]. apply reg_wf; [done|lia]. }
  split; [|split; [|split]].
  - split; [by rewrite add_eq|]. split; [by apply add_bits_wf|].
    rewrite add_eq. cbn [fst snd]. by apply add_at_large_wf.
  - split; [|split; [by apply remove_bits_wf|]].
    + rewrite remove_eq. cbn [fst snd].
      destruct (S.isOffsetValid off); [done|by destruct Hroom].
    + rewrite remove_eq. unfold remove_at. cbn [fst snd].
      destruct (S.isOffsetValid off); cbn [snd]; [done|].
      intros p. cbn [S.largePointers]. rewrite elem_of_difference.
      intros [? _]. by apply Hlarge.
  - destruct (removeAny_eq T s t) as [Hs Ht].
    split; [by rewrite Ht|]. split; [by apply removeAny_bits_wf|].
    rewrite Hs. intros p. unfold removeAny_at. cbn [S.largePointers].
    rewrite elem_of_filter. intros [_ ?]. by apply Hlarge.
  - intros HB HlB. split; [by apply addSet_bits_wf|].
    intros p. unfold S.addSet, SparseBitvector.set_all.
    cbn [snd S.largePointers]. rewrite elem_of_union.
    intros [?|?]; [by apply Hlarge|by apply HlB].
Qed.

Lemma large_wf_new : large_wf S.new.
Proof. intros p Hp. by apply not_elem_of_empty in Hp. Qed.

Lemma mutators_keep_representation_witness :
  large_wf (S.add exT 100 S.new exUnknown.2).1.2.
Proof.
  refine (proj2 (proj2 (proj1
            (mutators_keep_representation exT 100 S.new S.new exUnknown.2
               _ _ _ _)))).
  - apply (tbl_room_le 2 1); [lia|apply tbl_room_exUnknown].
  - apply bits_wf_new.
  - apply large_wf_new.
  - unfold is_u64. lia.
Defined.

(** ** Queries on a target *)

Lemma pointsToTarget_result T s t :
  S.result (S.pointsToTarget T s) t
  = existsb (λ x, SparseBitvector.get x (S.pointers s))
            (seqZ (posOf (idOf T t))
                  (wrap64 (posOf (idOf T t) + 64) - posOf (idOf T t)))
    || existsb (λ ptr : N * Z, bool_decide (ptr.1 = T))
               (elements (S.largePointers s)).
Proof.
  unfold S.result, S.pointsToTarget, S.getNodePosition, S.bind, S.ret.
  by rewrite getNodeID_eq.
Qed.

(** A pointer of [T] in the set makes [pointsToTarget(T)] true. *)
Lemma pointsTo_pointsToTarget (T : N) (o : Z) (s : S.t) (t : S.IdTable) :
  tbl_room 1 t → is_u64 o →
  S.result (S.pointsTo (T, o) s) t = true →
  S.result (S.pointsToTarget T s) t = true.
Proof.
  intros Hroom Ho Hp. destruct (idOf_room T t Hroom) as [Hi _].
  rewrite pointsToTarget_result, orb_true_iff, existsb_exists.
  rewrite existsb_elements_set, posOf_end_room, posOf_room by done.
  rewrite pointsTo_result in Hp. unfold pointsTo_at in Hp.
  cbn [fst snd] in Hp. set (i := idOf T t) in *.
  destruct (S.isOffsetValid o) eqn:Hv.
  - left. exists (bitOf i o). split; [|done].
    apply list_elem_of_In, elem_of_seqZ.
    pose proof (bitOf_block i o Hi Ho Hv). lia.
  - right. exists (T, o). split; [by apply bool_decide_eq_true in Hp|].
    by apply bool_decide_eq_true.
Qed.

(** X16: [pointsToTarget(T)] is true exactly when [pointsTo((T, o))] is
    true for some offset [o], the unknown one included. *)
Theorem pointsToTarget_iff (T : N) (s : S.t) (t : S.IdTable) :
  tbl_room 1 t → large_wf s →
  S.result (S.pointsToTarget T s) t = true
  ↔ ∃ o, is_u64 o ∧ S.result (S.pointsTo (T, o) s) t = true.
Proof.
  intros Hroom Hlarge. split.
  2:{ intros (o & Ho & Hp). by apply (pointsTo_pointsToTarget T o). }
  destruct (idOf_room T t Hroom) as [Hi _].
  rewrite pointsToTarget_result, orb_true_iff, existsb_exists.
  rewrite existsb_elements_set, posOf_end_room, posOf_room by done.
  set (i := idOf T t) in *.
  intros [(x & Hx & Hg) | ([T' o] & Hin & HT)].
  - apply list_elem_of_In, elem_of_seqZ in Hx.
    destruct (decide (x = 64 * (i - 1) + 63)) as [->|Hne].
    + exists Offset.UNKNOWN. split; [unfold is_u64, Offset.UNKNOWN; lia|].
      rewrite pointsTo_result. unfold pointsTo_at. cbn [fst snd].
      fold i. by rewrite isOffsetValid_UNKNOWN, bitOf_UNKNOWN_room.
    + exists (x - 64 * (i - 1)). split; [unfold is_u64; lia|].
      rewrite pointsTo_result. unfold pointsTo_at. cbn [fst snd]. fold i.
      rewrite isOffsetValid_finite by (unfold Offset.UNKNOWN; lia).
      rewrite bool_decide_eq_true_2 by lia.
      rewrite bitOf_small_room by lia.
      by replace (64 * (i - 1) + (x - 64 * (i - 1))) with x by lia.
  - apply bool_decide_eq_true in HT. cbn [fst] in HT. subst T'.
    destruct (Hlarge _ Hin) as [Ho Hv]. cbn [snd] in *.
    exists o. split; [done|]. rewrite pointsTo_result. unfold pointsTo_at.
    cbn [fst snd]. rewrite Hv. by apply bool_decide_eq_true.
Qed.

Lemma pointsToTarget_iff_witness :
  S.result (S.pointsToTarget exT exThree.1.2) exThree.2 = true
  ↔ ∃ o, is_u64 o ∧ S.result (S.pointsTo (exT, o) exThree.1.2) exThree.2 = true.
Proof.
  assert (exThree.2 = exUnknown.2) as Ht by (vm_compute; reflexivity).
  apply pointsToTarget_iff.
  - rewrite Ht. apply (tbl_room_le 2 1); [lia|apply tbl_room_exUnknown].
  - intros p Hp. exfalso.
    assert (S.largePointers exThree.1.2 = ∅) as He by (vm_compute; reflexivity).
    rewrite He in Hp. by apply not_elem_of_empty in Hp.
Defined.

(** X17: when [mustPointTo(p)] is true, [p] is in the set and no other
    pointer is. *)
Theorem mustPointTo_unique (p q : N * Z) (s : S.t) (t : S.IdTable) :
  tbl_room 2 t → bits_wf t s → is_u64 p.2 → is_u64 q.2 → q ≠ p →
  S.result (S.mustPointTo p s) t = Some true →
  S.result (S.pointsTo p s) t = true
  ∧ S.result (S.pointsTo q s) (S.table (S.mustPointTo p s) t) = false.
Proof.
  intros Hroom Hbits Hp Hq Hne. destruct p as [T o], q as [T' o'].
  cbn [fst snd] in *.
  unfold S.result at 1, S.table, S.mustPointTo. cbn [fst snd].
  destruct (Offset.isUnknown o); [discriminate|].
  unfold S.bind, S.ret. rewrite pointsTo_eq. cbn [fst snd].
  intros [= Hand]. apply andb_true_iff in Hand as [Hpt Hsingle].
  rewrite !pointsTo_result. cbn [fst]. split; [done|].
  pose proof (tbl_room_le 2 1 t ltac:(lia) Hroom) as Hroom1.
  destruct (idOf_room T t Hroom1) as [Hi _].
  unfold S.isSingleton, SparseBitvector.size in Hsingle.
  unfold pointsTo_at in *. cbn [fst snd] in *.
  destruct (S.isOffsetValid o) eqn:Hv.
  - apply get_true in Hpt.
    assert (size (S.pointers s) = 1%nat ∧ S.largePointers s = ∅) as [Hs1 Hl0].
    { apply orb_true_iff in Hsingle as [H|H]; apply andb_true_iff in H as [H1 H2];
        apply bool_decide_eq_true in H1, H2.
      - split; [lia|]. by apply leibniz_equiv, size_empty_iff.
      - assert (size (S.pointers s) = 0%nat) as H0 by lia.
        apply size_empty_iff in H0. set_solver. }
    destruct (S.isOffsetValid o') eqn:Hv'.
    2:{ apply bool_decide_eq_false. rewrite Hl0. apply not_elem_of_empty. }
    assert (tbl_room 1 (reg T t)) as Hroom' by (by apply reg_room).
    pose proof (bits_wf_reg T t s Hbits) as Hbits'.
    destruct (S.ids (reg T t) !! T') as [j|] eqn:Hj.
    2:{ by apply unregistered_absent. }
    apply get_false. intros Hin.
    pose proof (size_singleton_inv _ _ _ Hs1 Hpt Hin) as Heq.
    rewrite (idOf_known _ _ _ Hj) in Heq.
    destruct Hroom' as [Hwf' Hlen'].
    pose proof (tbl_wf_range _ _ _ Hwf' Hj) as Hrange.
    assert (1 ≤ j < 2 ^ 58) as Hjb by lia.
    destruct (bitOf_inj _ _ o o' Hi Hjb) as [Hij Hoo]; try done.
    apply Hne. f_equal; [|done].
    apply (tbl_wf_inj (reg T t) T' T j Hwf' Hj).
    rewrite <- Hij. apply getNodeID_registers.
  - apply bool_decide_eq_true in Hpt.
    assert (S.pointers s = ∅ ∧ size (S.largePointers s) = 1%nat) as [Hs0 Hl1].
    { apply orb_true_iff in Hsingle as [H|H]; apply andb_true_iff in H as [H1 H2];
        apply bool_decide_eq_true in H1, H2.
      - apply size_empty_iff in H2. set_solver.
      - split; [|done]. apply leibniz_equiv, size_empty_iff. lia. }
    destruct (S.isOffsetValid o').
    + apply get_false. rewrite Hs0. apply not_elem_of_empty.
    + apply bool_decide_eq_false. intros Hin.
      apply Hne. symmetry. by apply (size_singleton_inv _ _ _ Hl1 Hpt Hin).
Qed.

Lemma mustPointTo_unique_witness :
  S.result (S.pointsTo (exT, 4) exThree.1.2)
           (S.table (S.mustPointTo (exT, 3) exThree.1.2) exThree.2) = false.
Proof.
  assert (exThree.2 = exUnknown.2) as Ht by (vm_compute; reflexivity).
  refine (proj2 (mustPointTo_unique (exT, 3) (exT, 4) exThree.1.2 exThree.2
                   _ _ _ _ _ _)).
  - rewrite Ht. apply tbl_room_exUnknown.
  - unfold exThree. apply add_bits_wf.
    + apply (tbl_room_le 2 1); [lia|apply tbl_room_exUnknown].
    + unfold is_u64. lia.
    + apply bits_wf_new.
  - unfold is_u64. simpl. lia.
  - unfold is_u64. simpl. lia.
  - intros [=].
  - vm_compute. reflexivity.
Defined.

(** ** Iteration *)

Lemma mod64_block a k : 0 ≤ k < 64 → (64 * a + k) mod 64 = k.
Proof.
  intros Hk. rewrite Z.add_comm, Z.mul_comm, Z.mod_add by lia.
  by apply Z.mod_small.
Qed.

Lemma decodeBit_block t T i k :
  tbl_wf t → S.ids t !! T = Some i → i < 2 ^ 58 → 0 ≤ k ≤ 63 →
  decodeBit t (64 * (i - 1) + k)
  = Some (if bool_decide (k = 63) then (T, Offset.UNKNOWN) else (T, k)).
Proof.
  intros Hwf Hi Hlt Hk. pose proof (tbl_wf_range _ _ _ Hwf Hi) as Hr.
  destruct Hwf as [_ Hwf]. apply Hwf in Hi as [_ Hl].
  unfold decodeBit, S.deref. cbn [negb S.secondContainer S.bitvector_it].
  rewrite mod64_block by lia.
  replace (64 * (i - 1) + k - k) with (64 * (i - 1)) by lia.
  rewrite (wrap64_small (64 * (i - 1))) by (unfold is_u64; lia).
  rewrite Z.mul_comm, Z.div_mul by lia.
  rewrite (wrap64_small (i - 1 + 1)) by (unfold is_u64; lia).
  rewrite (wrap64_small (i - 1 + 1 - 1)) by (unfold is_u64; lia).
  replace (i - 1 + 1 - 1) with (i - 1) by lia.
  by rewrite Hl.
Qed.

(** X18: the iterator decodes what [getPosition] encodes: standing on
    the position of (T, off), for the unknown offset or a finite one up
    to 62, it returns (T, off). *)
Theorem deref_getPosition
    (T : N) (off : Z) (rest : list Z) (ls : list (N * Z)) (t : S.IdTable) :
  tbl_room 1 t → is_u64 off → S.isOffsetValid off = true →
  S.deref {| S.bitvector_it := (S.getPosition T off t).1 :: rest;
             S.bitvector_end := [];
             S.set_it := ls;
             S.secondContainer := false |}
          (S.getPosition T off t).2
  = Some (T, off).
Proof.
  intros Hroom Ho Hv. rewrite getPosition_eq. cbn [fst snd].
  destruct (idOf_room T t Hroom) as [Hi _].
  assert (tbl_wf (reg T t)) as Hwf.
  { destruct Hroom as [Hwf Hlen]. apply reg_wf; [done|lia]. }
  pose proof (getNodeID_registers T t) as Hreg.
  change (decodeBit (reg T t) (bitOf (idOf T t) off) = Some (T, off)).
  destruct (decide (off = Offset.UNKNOWN)) as [->|Hne].
  - rewrite bitOf_UNKNOWN_room by done.
    by rewrite (decodeBit_block _ T) by (done || lia).
  - rewrite isOffsetValid_finite in Hv by done. apply bool_decide_eq_true in Hv.
    unfold is_u64 in Ho. rewrite bitOf_small_room by lia.
    rewrite (decodeBit_block _ T) by (done || lia).
    by rewrite bool_decide_eq_false_2 by lia.
Qed.

Lemma deref_getPosition_witness :
  S.deref {| S.bitvector_it := (S.getPosition exT 3 exUnknown.2).1 :: [];
             S.bitvector_end := [];
             S.set_it := [];
             S.secondContainer := false |}
          (S.getPosition exT 3 exUnknown.2).2
  = Some (exT, 3).
Proof.
  apply deref_getPosition.
  - apply (tbl_room_le 2 1); [lia|apply tbl_room_exUnknown].
  - unfold is_u64. lia.
  - reflexivity.
Defined.

Lemma walk_from bs ls t fuel :
  (length bs + length ls ≤ fuel)%nat →
  S.walk fuel
    {| S.bitvector_it := bs; S.bitvector_end := []; S.set_it := ls;
       S.secondContainer := bool_decide (bs = []) |}
    {| S.bitvector_it := []; S.bitvector_end := []; S.set_it := [];
       S.secondContainer := true |} t
  = Some (map (decodeBit t) bs ++ map Some ls).
Proof.
  revert fuel. induction bs as [|x bs IH].
  - induction ls as [|p ls IHl]; intros fuel Hfuel.
    + by destruct fuel.
    + destruct fuel as [|fuel]; [simpl in Hfuel; lia|].
      cbn [S.walk]. unfold S.iterator_eq. cbn [S.bitvector_it S.set_it].
      rewrite (bool_decide_eq_false_2 (p :: ls = [])) by done.
      rewrite andb_false_r.
      assert (S.incr {| S.bitvector_it := []; S.bitvector_end := [];
                        S.set_it := p :: ls;
                        S.secondContainer := bool_decide (@nil Z = []) |}
              = {| S.bitvector_it := []; S.bitvector_end := [];
                   S.set_it := ls;
                   S.secondContainer := bool_decide (@nil Z = []) |}) as ->
        by reflexivity.
      rewrite IHl by (simpl in *; lia). reflexivity.
  - intros fuel Hfuel. destruct fuel as [|fuel]; [simpl in Hfuel; lia|].
    cbn [S.walk]. unfold S.iterator_eq. cbn [S.bitvector_it S.set_it].
    rewrite !(bool_decide_eq_false_2 (x :: bs = [])) by done.
    cbn [andb].
    assert (S.incr {| S.bitvector_it := x :: bs; S.bitvector_end := [];
                      S.set_it := ls;
                      S.secondContainer := false |}
            = {| S.bitvector_it := bs; S.bitvector_end := [];
                 S.set_it := ls;
                 S.secondContainer := bool_decide (bs = []) |}) as Hincr.
    { unfold S.incr.
      cbn [negb S.secondContainer S.bitvector_it S.bitvector_end S.set_it tail].
      by destruct bs. }
    rewrite Hincr, IH by (simpl in *; lia). reflexivity.
Qed.

Lemma begin_eq s :
  S.begin s
  = {| S.bitvector_it := SparseBitvector.begin (S.pointers s);
       S.bitvector_end := [];
       S.set_it := S.set_begin (S.largePointers s);
       S.secondContainer :=
         bool_decide (SparseBitvector.begin (S.pointers s) = []) |}.
Proof.
  unfold S.begin, S.new_const_iterator.
  by destruct (SparseBitvector.begin (S.pointers s)).
Qed.

Lemma length_bits (b : gset Z) : length (SparseBitvector.begin b) = size b.
Proof. unfold SparseBitvector.begin. by rewrite merge_sort_Permutation. Qed.

Lemma length_set_begin (X : gset (N * Z)) : length (S.set_begin X) = size X.
Proof. unfold S.set_begin. by rewrite merge_sort_Permutation. Qed.

Lemma elem_of_bits (b : gset Z) x : x ∈ SparseBitvector.begin b ↔ x ∈ b.
Proof.
  unfold SparseBitvector.begin.
  by rewrite merge_sort_Permutation, elem_of_elements.
Qed.

Lemma elem_of_set_begin (X : gset (N * Z)) p : p ∈ S.set_begin X ↔ p ∈ X.
Proof.
  unfold S.set_begin. by rewrite merge_sort_Permutation, elem_of_elements.
Qed.

Lemma walk_begin_end (s : S.t) (t : S.IdTable) (fuel : nat) :
  (size (S.pointers s) + size (S.largePointers s) ≤ fuel)%nat →
  S.walk fuel (S.begin s) (S.end_ s) t
  = Some (map (decodeBit t) (SparseBitvector.begin (S.pointers s))
          ++ map Some (S.set_begin (S.largePointers s))).
Proof.
  intros Hfuel. rewrite begin_eq. apply walk_from.
  by rewrite length_bits, length_set_begin.
Qed.

(** X19: the loop from [begin()] to [end()] ends after as many steps as
    the bitvector has bits and the overflow set has entries, and it
    has dereferenced the iterator on each bit, in index order, and then
    on each overflow entry, in the order of the set. *)
Theorem walk_visits_all (s : S.t) (t : S.IdTable) (fuel : nat) :
  (size (S.pointers s) + size (S.largePointers s) ≤ fuel)%nat →
  S.walk fuel (S.begin s) (S.end_ s) t
  = Some (map (decodeBit t) (SparseBitvector.begin (S.pointers s))
          ++ map Some (S.set_begin (S.largePointers s)))
  ∧ length (map (decodeBit t) (SparseBitvector.begin (S.pointers s))
            ++ map Some (S.set_begin (S.largePointers s)))
    = (size (S.pointers s) + size (S.largePointers s))%nat.
Proof.
  intros Hfuel. split.
  - by apply walk_begin_end.
  - by rewrite length_app, !length_map, length_bits, length_set_begin.
Qed.

Lemma walk_visits_all_witness :
  S.walk 2 (S.begin exUnion.2) (S.end_ exUnion.2) exThree.2
  = Some (map (decodeBit exThree.2) (SparseBitvector.begin (S.pointers exUnion.2))
          ++ map Some (S.set_begin (S.largePointers exUnion.2))).
Proof.
  refine (proj1 (walk_visits_all exUnion.2 exThree.2 2 _)).
  vm_compute. lia.
Defined.

Lemma decodeBit_registered t x :
  tbl_room 0 t → 0 ≤ x < 64 * Z.of_nat (length (S.idVector t)) →
  ∃ T i k, S.ids t !! T = Some i ∧ 1 ≤ i < 2 ^ 58 ∧ 0 ≤ k ≤ 63
           ∧ x = 64 * (i - 1) + k
           ∧ decodeBit t x
             = Some (if bool_decide (k = 63) then (T, Offset.UNKNOWN)
                     else (T, k)).
Proof.
  intros [Hwf Hlen] Hx.
  pose proof (Z.div_mod x 64 ltac:(lia)) as Hdm.
  pose proof (Z.mod_pos_bound x 64 ltac:(lia)) as Hmod.
  assert (0 ≤ x / 64 < Z.of_nat (length (S.idVector t))) as Ha.
  { split; [apply Z.div_pos; lia|]. apply Z.div_lt_upper_bound; lia. }
  destruct (lookup_lt_is_Some_2 (S.idVector t) (Z.to_nat (x / 64)))
    as [T HT]; [lia|].
  assert (S.ids t !! T = Some (x / 64 + 1)) as Hi.
  { apply Hwf. split; [lia|]. by replace (x / 64 + 1 - 1) with (x / 64) by lia. }
  exists T, (x / 64 + 1), (x mod 64).
  split; [done|]. split; [lia|]. split; [lia|]. split; [lia|].
  replace x with (64 * (x / 64 + 1 - 1) + x mod 64) at 1 by lia.
  apply decodeBit_block; try done; lia.
Qed.

(** X20: on a set in sound representation the loop from [begin()] to
    [end()] never dereferences out of bounds, and the pointers it yields
    are exactly those for which [pointsTo] is true. *)
Theorem walk_yields_members (s : S.t) (t : S.IdTable) (p : N * Z) :
  tbl_room 1 t → bits_wf t s → large_wf s → is_u64 p.2 →
  ∃ l, S.walk (size (S.pointers s) + size (S.largePointers s))
              (S.begin s) (S.end_ s) t = Some l
       ∧ (None ∉ l)
       ∧ (Some p ∈ l ↔ S.result (S.pointsTo p s) t = true).
Proof.
  intros Hroom Hbits Hlarge Hp.
  pose proof (tbl_room_le 1 0 t ltac:(lia) Hroom) as Hroom0.
  eexists. split; [apply walk_begin_end; lia|].
  split.
  - rewrite elem_of_app, !list_elem_of_In, !in_map_iff.
    intros [(x & Hd & Hx) | (q & [=] & _)].
    apply list_elem_of_In, elem_of_bits, Hbits in Hx.
    destruct (decodeBit_registered t x Hroom0 Hx) as (T & i & k & _ & _ & _ & _ & Hdec).
    congruence.
  - destruct p as [T o]. cbn [snd] in Hp.
    rewrite pointsTo_result. cbn [fst].
    rewrite elem_of_app, !list_elem_of_In, !in_map_iff. split.
    + intros [(x & Hd & Hx) | (q & [= ->] & Hq)].
      * apply list_elem_of_In, elem_of_bits in Hx. pose proof (Hbits _ Hx) as Hr.
        destruct (decodeBit_registered t x Hroom0 Hr)
          as (T' & i & k & Hi & Hib & Hk & -> & Hdec).
        rewrite Hdec in Hd. unfold pointsTo_at. cbn [snd].
        case_bool_decide as Hk63; injection Hd as <- <-;
          rewrite (idOf_known T' t i) by done.
        -- rewrite isOffsetValid_UNKNOWN, bitOf_UNKNOWN_room by done.
           apply get_true. by subst k.
        -- rewrite isOffsetValid_finite by (unfold Offset.UNKNOWN; lia).
           rewrite bool_decide_eq_true_2 by lia.
           rewrite bitOf_small_room by lia. by apply get_true.
      * apply list_elem_of_In, elem_of_set_begin in Hq.
        destruct (Hlarge _ Hq) as [_ Hv]. cbn [snd] in Hv.
        unfold pointsTo_at. cbn [snd]. rewrite Hv.
        by apply bool_decide_eq_true.
    + intros Hpt. unfold pointsTo_at in Hpt. cbn [snd] in Hpt.
      destruct (S.isOffsetValid o) eqn:Hv.
      * left. destruct (S.ids t !! T) as [i|] eqn:Hi.
        2:{ by rewrite unregistered_absent in Hpt. }
        rewrite (idOf_known _ _ _ Hi) in Hpt. apply get_true in Hpt.
        exists (bitOf i o). split; [|by apply list_elem_of_In, elem_of_bits].
        destruct Hroom as [Hwf Hlen].
        pose proof (tbl_wf_range _ _ _ Hwf Hi) as Hr.
        destruct (decide (o = Offset.UNKNOWN)) as [->|Hne].
        -- rewrite bitOf_UNKNOWN_room by lia.
           by rewrite (decodeBit_block t T) by (done || lia).
        -- rewrite isOffsetValid_finite in Hv by done.
           apply bool_decide_eq_true in Hv. unfold is_u64 in Hp.
           rewrite bitOf_small_room by lia.
           rewrite (decodeBit_block t T) by (done || lia).
           by rewrite bool_decide_eq_false_2 by lia.
      * right. exists (T, o). split; [done|].
        apply list_elem_of_In, elem_of_set_begin.
        by apply bool_decide_eq_true in Hpt.
Qed.

Lemma walk_yields_members_witness :
  ∃ l, S.walk (size (S.pointers exThree.1.2) + size (S.largePointers exThree.1.2))
              (S.begin exThree.1.2) (S.end_ exThree.1.2) exThree.2 = Some l
       ∧ (None ∉ l)
       ∧ (Some (exT, 3) ∈ l
          ↔ S.result (S.pointsTo (exT, 3) exThree.1.2) exThree.2 = true).
Proof.
  assert (exThree.2 = exUnknown.2) as Ht by (vm_compute; reflexivity).
  apply walk_yields_members.
  - rewrite Ht. apply (tbl_room_le 2 1); [lia|apply tbl_room_exUnknown].
  - unfold exThree. apply add_bits_wf.
    + apply (tbl_room_le 2 1); [lia|apply tbl_room_exUnknown].
    + unfold is_u64. lia.
    + apply bits_wf_new.
  - intros p Hp. exfalso.
    assert (S.largePointers exThree.1.2 = ∅) as He by (vm_compute; reflexivity).
    rewrite He in Hp. by apply not_elem_of_empty in Hp.
  - unfold is_u64. simpl. lia.
Defined.

(** ** The size of a points-to set *)

(** X21: on a set with fewer than [2^64 - 1] pointers, [add] of a
    finite offset makes [size()] one larger when it returns true and
    leaves it as it is when it returns false. *)
Theorem add_finite_size (T : N) (k : Z) (s : S.t) (t : S.IdTable) :
  k ≠ Offset.UNKNOWN →
  Z.of_nat (size (S.pointers s) + size (S.largePointers s)) < 2 ^ 64 - 1 →
  S.size (S.add T k s t).1.2
  = S.size s + (if (S.add T k s t).1.1 then 1 else 0).
Proof.
  intros Hk Hsz. rewrite add_eq. cbn [fst snd].
  unfold add_at, S.size, SparseBitvector.size.
  destruct (SparseBitvector.get _ (S.pointers s)); cbn [fst snd].
  { rewrite wrap64_small by (unfold is_u64; lia). lia. }
  rewrite (wrap64_small (_ + Z.of_nat (size (S.largePointers s))))
    by (unfold is_u64; lia).
  rewrite (proj2 (isUnknown_false k)) by done.
  destruct (S.isOffsetValid k); cbn [fst snd S.pointers S.largePointers].
  - destruct (SparseBitvector.get (bitOf (idOf T t) k) (S.pointers s)) eqn:Hg;
      cbn [negb].
    + apply get_true in Hg.
      replace ({[bitOf (idOf T t) k]} ∪ S.pointers s) with (S.pointers s)
        by set_solver.
      rewrite wrap64_small by (unfold is_u64; lia). lia.
    + apply get_false in Hg.
      rewrite size_union, size_singleton by set_solver.
      rewrite wrap64_small by (unfold is_u64; lia). lia.
  - case_bool_decide as Hin.
    + rewrite size_union, size_singleton by set_solver.
      rewrite wrap64_small by (unfold is_u64; lia). lia.
    + replace ({[(T, k)]} ∪ S.largePointers s) with (S.largePointers s)
        by set_solver.
      rewrite wrap64_small by (unfold is_u64; lia). lia.
Qed.

Lemma add_finite_size_witness :
  S.size (S.add exT 100 exUnion.2 exThree.2).1.2
  = S.size exUnion.2 + (if (S.add exT 100 exUnion.2 exThree.2).1.1 then 1 else 0).
Proof.
  apply add_finite_size.
  - unfold Offset.UNKNOWN. lia.
  - vm_compute. reflexivity.
Defined.

(** ** The graph and its nodes *)

Section GraphProperties.

Context {RDMap : Type} (m : RDMap) (upd : RD.DefSite → N → RDMap → RDMap).

Lemma createAll_snoc reqs r (g : RD.ReachingDefinitionsGraph RDMap) :
  RD.createAll m (reqs ++ [r]) g
  = (RD.create m r.1 r.2 (RD.createAll m reqs g)).2.
Proof. unfold RD.createAll. by rewrite foldl_app. Qed.

Lemma foldl_orb {A} (f : A → bool) (l : list A) (c : bool) :
  foldl (λ res x, res || f x) c l = c || existsb f l.
Proof.
  revert c. induction l as [|x l IH]; intros c; simpl.
  - by rewrite orb_false_r.
  - by rewrite IH, orb_assoc.
Qed.

End GraphProperties.

(** X22: the nodes a graph creates are numbered from 1 in the order of
    creation: after [n] calls of [create] on a new graph, with [n]
    below [2^32], [lastNodeID] is [n], the nodes have the identities
    1, ..., n, all different and none zero, at the addresses and with
    the types that were asked for. *)
Theorem createAll_ids (RDMap : Type) (m : RDMap)
    (reqs : list (N * RD.RDNodeType)) :
  Z.of_nat (length reqs) < 2 ^ 32 →
  let g := RD.createAll m reqs RD.newGraph in
  RD.lastNodeID g = Z.of_nat (length reqs)
  ∧ map (λ n, RD.id n.2) (RD._nodes g) = seqZ 1 (Z.of_nat (length reqs))
  ∧ NoDup (map (λ n, RD.id n.2) (RD._nodes g))
  ∧ (∀ i, i ∈ map (λ n, RD.id n.2) (RD._nodes g) → i ≠ 0)
  ∧ map (λ n, (n.1, RD.type n.2)) (RD._nodes g) = reqs.
Proof.
  intros Hlen g.
  assert (RD.lastNodeID g = Z.of_nat (length reqs)
          ∧ map (λ n, RD.id n.2) (RD._nodes g) = seqZ 1 (Z.of_nat (length reqs))
          ∧ map (λ n, (n.1, RD.type n.2)) (RD._nodes g) = reqs)
    as (Hlast & Hids & Hreqs).
  { subst g. induction reqs as [|r reqs IH] using rev_ind; [done|].
    rewrite length_app in Hlen. simpl in Hlen.
    destruct IH as (IH1 & IH2 & IH3); [lia|].
    rewrite createAll_snoc. unfold RD.create. cbn [snd RD.lastNodeID RD._nodes].
    rewrite IH1, !map_app, IH2, IH3, length_app. cbn [length map].
    rewrite (wrap64_small (Z.of_nat (length reqs) + 1)) by (unfold is_u64; lia).
    split; [lia|]. split.
    - replace (length reqs + 1)%nat with (S (length reqs)) by lia.
      rewrite seqZ_S. f_equal. cbn. unfold wrap32.
      rewrite Z.mod_small by lia. f_equal. lia.
    - by destruct r. }
  split; [done|]. split; [done|]. rewrite Hids.
  split; [apply NoDup_seqZ|]. split; [|done].
  intros i Hi%elem_of_seqZ. lia.
Qed.

Lemma createAll_ids_witness :
  RD.lastNodeID
    (RD.createAll tt [(16%N, RD.ALLOC); (32%N, RD.STORE)] RD.newGraph) = 2.
Proof.
  refine (proj1 (createAll_ids unit tt [(16%N, RD.ALLOC); (32%N, RD.STORE)] _)).
  simpl. lia.
Defined.

(** X23: what a node defines it still defines after [addDef], weak or
    strong, after [addOverwrites] and after [addUse]. *)
Theorem defines_monotone (RDMap : Type)
    (upd : RD.DefSite → N → RDMap → RDMap) (this : N) (ds : RD.DefSite)
    (strong : bool) (T : N) (off : Z) (n : RD.RDNode RDMap) :
  RD.defines T off n = true →
  RD.defines T off (RD.addDef upd this ds strong n) = true
  ∧ RD.defines T off (RD.addOverwrites ds n) = true
  ∧ RD.defines T off (RD.addUse ds n) = true.
Proof.
  destruct (Offset.isUnknown off) eqn:Hu.
  - apply isUnknown_true in Hu as ->. rewrite !defines_unknown.
    intros (d & Hin & Hd). repeat split; exists d; (split; [|done]);
      cbn; try done. destruct strong; set_solver.
  - rewrite !defines_finite by done.
    intros (d & Hin & Hd). repeat split; exists d; (split; [|done]);
      cbn; try done; destruct strong; set_solver.
Qed.

Lemma defines_monotone_witness :
  RD.defines 5%N 2
    (RD.addUse (RD.mkDefSite 6%N 0 1)
       (RD.addDef (λ _ _ (m : unit), m) 1%N (RD.mkDefSite 5%N 0 4) false
          (RD.newRDNode tt 1 RD.STORE))) = true.
Proof.
  refine (proj2 (proj2 (defines_monotone unit (λ _ _ m, m) 1%N
            (RD.mkDefSite 6%N 0 1) false 5%N 2 _ _))).
  vm_compute. reflexivity.
Defined.

(** X24: [usesUnknown()] is true exactly when one of the node's uses
    has [UNKNOWN_MEMORY] as its target. *)
Theorem usesUnknown_iff (RDMap : Type) (UNKNOWN_MEMORY : N)
    (n : RD.RDNode RDMap) :
  RD.usesUnknown UNKNOWN_MEMORY n = true
  ↔ ∃ use, use ∈ RD.uses n ∧ RD.target use = UNKNOWN_MEMORY.
Proof.
  unfold RD.usesUnknown. rewrite foldl_orb. cbn [orb].
  rewrite existsb_elements_set.
  split; intros (use & Hin & Hu); exists use; (split; [done|]).
  - by apply bool_decide_eq_true in Hu.
  - by apply bool_decide_eq_true.
Qed.

(** ** Counting and asking after [add] *)

(** X25: [empty()], [isSingleton()] and [size()] agree: on a set with
    fewer than [2^64] pointers, [empty()] is true exactly when
    [size()] is 0 and [isSingleton()] exactly when [size()] is 1. *)
Theorem size_empty_singleton (s : S.t) :
  Z.of_nat (size (S.pointers s) + size (S.largePointers s)) < 2 ^ 64 →
  (S.empty s = true ↔ S.size s = 0)
  ∧ (S.isSingleton s = true ↔ S.size s = 1).
Proof.
  intros Hsz. unfold S.empty, S.isSingleton, S.size, SparseBitvector.size.
  rewrite wrap64_small by (unfold is_u64; lia).
  rewrite orb_true_iff, !andb_true_iff, !bool_decide_eq_true. lia.
Qed.

Lemma size_empty_singleton_witness :
  S.isSingleton exThree.1.2 = true ↔ S.size exThree.1.2 = 1.
Proof.
  refine (proj2 (size_empty_singleton exThree.1.2 _)).
  vm_compute. reflexivity.
Defined.

(** X26: after [add(T, off)], whatever it returned, [pointsToTarget(T)]
    is true. *)
Theorem add_then_pointsToTarget (T : N) (off : Z) (s : S.t) (t : S.IdTable) :
  tbl_room 2 t → is_u64 off →
  S.result (S.pointsToTarget T (S.add T off s t).1.2) (S.add T off s t).2 = true.
Proof.
  intros Hroom Ho.
  pose proof (tbl_room_le 2 1 t ltac:(lia) Hroom) as Hroom1.
  assert (tbl_room 1 (reg T t)) as Hroom' by (by apply reg_room).
  rewrite add_eq. cbn [fst snd]. set (i := idOf T t).
  destruct (pointsTo_at i (T, Offset.UNKNOWN) (add_at i T off s).2) eqn:Hu.
  { apply (pointsTo_pointsToTarget T Offset.UNKNOWN _ _ Hroom').
    - unfold is_u64, Offset.UNKNOWN. lia.
    - rewrite pointsTo_result. cbn [fst]. by rewrite idOf_reg. }
  apply (pointsTo_pointsToTarget T off _ _ Hroom' Ho).
  rewrite pointsTo_result. cbn [fst]. rewrite idOf_reg. fold i.
  unfold pointsTo_at, add_at in *. cbn [snd] in *.
  rewrite isOffsetValid_UNKNOWN in Hu.
  destruct (SparseBitvector.get (bitOf i Offset.UNKNOWN) (S.pointers s)) eqn:Hg.
  { cbn [snd] in Hu. congruence. }
  destruct (Offset.isUnknown off) eqn:Hoff.
  { cbn [snd S.pointers] in Hu. apply get_false in Hu. set_solver. }
  destruct (S.isOffsetValid off); cbn [snd S.pointers S.largePointers].
  - apply get_true. set_solver.
  - apply bool_decide_eq_true. set_solver.
Qed.

Lemma add_then_pointsToTarget_witness :
  S.result (S.pointsToTarget exT (S.add exT 100 S.new exUnknown.2).1.2)
           (S.add exT 100 S.new exUnknown.2).2 = true.
Proof.
  apply add_then_pointsToTarget.
  - apply tbl_room_exUnknown.
  - unfold is_u64. lia.
Defined.

(** X27: an [add] of a finite offset that returned true is undone by
    [remove] of the same pointer: [remove] returns true and the set is
    the one from before the [add]. *)
Theorem remove_undoes_add (T : N) (k : Z) (s : S.t) (t : S.IdTable) :
  k ≠ Offset.UNKNOWN →
  (S.add T k s t).1.1 = true →
  (S.remove (T, k) (S.add T k s t).1.2 (S.add T k s t).2).1 = (true, s).
Proof.
  intros Hk. rewrite add_eq. cbn [fst snd]. rewrite remove_eq. cbn [fst snd].
  replace (idOf T (reg T t)) with (idOf T t) by (by rewrite idOf_reg).
  set (i := idOf T t). unfold add_at, remove_at. cbn [fst snd].
  destruct (SparseBitvector.get (bitOf i Offset.UNKNOWN) (S.pointers s));
    [discriminate|].
  rewrite (proj2 (isUnknown_false k)) by done.
  destruct (S.isOffsetValid k); cbn [fst snd S.pointers S.largePointers].
  - intros Hg%negb_true_iff. apply get_false in Hg. f_equal.
    + apply get_true. set_solver.
    + apply set_eq_mk; [set_solver|done].
  - intros Hin%bool_decide_eq_true. f_equal.
    + apply bool_decide_eq_true. set_solver.
    + apply set_eq_mk; [done|set_solver].
Qed.

Lemma remove_undoes_add_witness :
  (S.remove (exT, 100) (S.add exT 100 exThree.1.2 exThree.2).1.2
            (S.add exT 100 exThree.1.2 exThree.2).2).1
  = (true, exThree.1.2).
Proof.
  apply remove_undoes_add.
  - unfold Offset.UNKNOWN. lia.
  - vm_compute. reflexivity.
Defined.
